(** * yprice: the price-refresh engine of [src/services/priceService.ts]

    A shallow embedding of [PriceService] (fetchAndStorePrices,
    fetchDiscoveredTokens, startPeriodicFetch) together with the parts of
    its environment the class talks to: lodash's [chunk], the JavaScript
    [Map] handed back by the price fetcher, the token arrays that are
    passed around by reference, and the progress tracker.

    Numbers that count things (array lengths, indices, progress values) are
    [nat]; chain ids and clock readings are [Z].  Both stay far below 2^53,
    where JavaScript's doubles are exact integers. *)

From Stdlib Require Import ZArith String Ascii List Lia ZifyNat Bool.
From stdpp Require Import base list strings gmap pretty.

Set Warnings "-register-all".
Local Open Scope string_scope.
Local Open Scope list_scope.

(** ** JavaScript strings *)

Module JS.

(** [String.prototype.toLowerCase] on one UTF-16 unit of the ASCII range.
    Addresses are hexadecimal ASCII text; a byte outside [A-Z] is left as it
    is (no code point outside ASCII lowers to a hexadecimal digit or to [x],
    so the comparison against a wrapped-native address is not affected). *)
Definition lower_ascii (c : ascii) : ascii :=
  let n := nat_of_ascii c in
  if (65 <=? n)%nat && (n <=? 90)%nat then ascii_of_nat (n + 32) else c.

Fixpoint toLowerCase (s : string) : string :=
  match s with
  | EmptyString => EmptyString
  | String c r => String (lower_ascii c) (toLowerCase r)
  end.

(** The insertion-ordered [Map<string, V>]: an association list in insertion
    order.  [get] returns the entry of a key, [set] replaces the value of a
    key that is present (the entry keeps its position) and appends a new
    entry otherwise, [values] lists the values in insertion order. *)
Section Map.
Context {V : Type}.

Fixpoint get (m : list (string * V)) (k : string) : option V :=
  match m with
  | [] => None
  | (k', v) :: r => if String.eqb k' k then Some v else get r k
  end.

Fixpoint set (m : list (string * V)) (k : string) (v : V) : list (string * V) :=
  match m with
  | [] => [(k, v)]
  | (k', v') :: r =>
      if String.eqb k' k then (k, v) :: r else (k', v') :: set r k v
  end.

Definition values (m : list (string * V)) : list V := map snd m.
End Map.

End JS.

(** ** lodash *)

Module Lodash.
Section Chunk.
Context {A : Type}.

(** [baseSlice(array, start, end)] for [0 <= start <= end]. *)
Definition baseSlice (array : list A) (start end_ : nat) : list A :=
  firstn (end_ - start) (skipn start array).

(** [nativeCeil(length / size)] for [size >= 1]. *)
Definition ceil_div (n size : nat) : nat := (n + (size - 1)) / size.

(** The loop of [chunk]:
    [while (index < length) result[resIndex++] = baseSlice(array, index, (index += size))].
    The result array is allocated with [nativeCeil(length / size)] slots,
    which is the number of iterations the loop can make. *)
Fixpoint chunk_loop (slots : nat) (array : list A) (size index : nat) : list (list A) :=
  match slots with
  | O => []
  | S slots' =>
      if (index <? length array)%nat
      then baseSlice array index (index + size)
             :: chunk_loop slots' array size (index + size)
      else []
  end.

(** [_.chunk(array, size)]: no chunks for an empty array or [size < 1]. *)
Definition chunk (array : list A) (size : nat) : list (list A) :=
  if (length array =? 0)%nat || (size <? 1)%nat then []
  else chunk_loop (ceil_div (length array) size) array size 0.
End Chunk.
End Lodash.

(** ** Data model *)

(** [ERC20Token] of [src/models]; the fields are those of the object literal
    pushed by [fetchAndStorePrices]. *)
Record ERC20Token : Type := mkToken {
  address : string;
  name : string;
  symbol : string;
  decimals : Z;
  chainId : Z
}.

(** Modelled from the spec: the price record of [src/models], whose
    declaration is not among the sources (section 3:
    [{address, price, chainId, metadata}]).  [fetchAndStorePrices] reads no
    field of it and writes [address] only. *)
Record Price : Type := mkPrice {
  price_address : string;
  price : Z;
  price_chainId : Z;
  price_source : string
}.

(** [{ ...p, address: a }] *)
Definition with_address (p : Price) (a : string) : Price :=
  {| price_address := a;
     price := price p;
     price_chainId := price_chainId p;
     price_source := price_source p |}.

Definition exn : Type := string.

(** The template literals handed to the logger, with the interpolated values
    kept apart from the fixed text. *)
Inductive message : Type :=
| StartingPriceService (intervalMs : Z)
| DiscoveryComplete (chains totalTokens : nat)
| PriceFetchComplete (totalTokens : nat) (errors : option nat)
| ErrorFetchingPrices (chainId : Z)
| ErrorFetchingDiscoveredTokens
| ErrorInitialPriceFetch
| ErrorPeriodicPriceFetch.

(** Calls that leave [PriceService]. *)
Inductive event : Type :=
| FetchPrices (chainId : Z) (tokens : list ERC20Token)
| StorePrices (chainId : Z) (prices : list Price)
| DiscoverAllTokens (forceRefresh : bool)
| ProgressStart (key label : string) (total : nat) (chainId : option Z)
| ProgressUpdate (key : string) (processed : nat)
| ProgressIncrement (key : string)
| ProgressComplete (key : string)
| ProgressGetStats
| LoggerError (msg : message) (error : exn)
| LoggerDebug (msg : message)
| LoggerInfo (msg : message)
| SetTimeout (ms : Z)
| SetInterval (ms : Z).

(** What a run of asynchronous code leaves behind: its own calls in program
    order, the tasks it awaited together through [Promise.all] (each with its
    own program order; how the event loop interleaves them is left open), and
    the promises it started without awaiting them. *)
Inductive item : Type :=
| Ev (e : event)
| All (tasks : list (list item))
| Detached (task : list item).

(** ** The progress tracker *)

Module ProgressTracker.

(** Modelled from the spec: [src/utils/progressTracker] is not among the
    sources.  Section 4.3 gives the state kept per key and the
    operations: [start] creates or resets the entry, [update] sets
    [processed] to the maximum of the current and the given value,
    [increment] adds one to [processed], [complete] closes the entry to
    further progress writes, [getStats] adds up errors and processed counts
    over all keys.  [completed] stands for "completedAt is set". *)
Record ProgressState : Type := mkProgress {
  ps_label : string;
  ps_total : nat;
  ps_processed : nat;
  ps_errors : nat;
  ps_chainId : option Z;
  ps_completed : bool
}.

Record Stats : Type := mkStats { stats_processed : nat; stats_errors : nat }.

Definition set_processed (st : ProgressState) (n : nat) : ProgressState :=
  mkProgress (ps_label st) (ps_total st) n (ps_errors st) (ps_chainId st)
             (ps_completed st).

Definition close (st : ProgressState) : ProgressState :=
  mkProgress (ps_label st) (ps_total st) (ps_processed st) (ps_errors st)
             (ps_chainId st) true.

Definition start (key label : string) (total : nat) (cid : option Z)
    (t : gmap string ProgressState) : gmap string ProgressState :=
  <[key := mkProgress label total 0 0 cid false]> t.

Definition write (key : string) (f : ProgressState -> ProgressState)
    (t : gmap string ProgressState) : gmap string ProgressState :=
  match t !! key with
  | Some st => if ps_completed st then t else <[key := f st]> t
  | None => t
  end.

Definition update (key : string) (processed : nat) :=
  write key (fun st => set_processed st (Nat.max (ps_processed st) processed)).

Definition increment (key : string) :=
  write key (fun st => set_processed st (S (ps_processed st))).

Definition complete (key : string) (t : gmap string ProgressState)
    : gmap string ProgressState :=
  match t !! key with
  | Some st => <[key := close st]> t
  | None => t
  end.

Definition getStats (t : gmap string ProgressState) : Stats :=
  map_fold (fun _ st acc =>
              mkStats (stats_processed acc + ps_processed st)
                      (stats_errors acc + ps_errors st))
           (mkStats 0 0) t.

End ProgressTracker.

(** ** Heap, outcomes and the monad of the embedding *)

(** Token arrays are objects: a variable holds a reference [loc] into
    [arrays].  [tracker] is the process-wide state of the progress tracker. *)
Definition loc : Type := nat.

Record Heap : Type := mkHeap {
  arrays : list (list ERC20Token);
  tracker : gmap string ProgressTracker.ProgressState
}.

(** A run yields the calls it made, the heap it leaves, and either a value
    or the exception it threw (the rejection of its promise). *)
Record Outcome (A : Type) : Type := mkOutcome {
  events : list item;
  heap : Heap;
  result : exn + A
}.
Arguments mkOutcome {A} _ _ _.
Arguments events {A} _.
Arguments heap {A} _.
Arguments result {A} _.

Definition M (A : Type) : Type := Heap -> Outcome A.

Definition ret {A} (a : A) : M A := fun h => mkOutcome [] h (inr a).

Definition throw {A} (e : exn) : M A := fun h => mkOutcome [] h (inl e).

Definition bind {A B} (m : M A) (f : A -> M B) : M B := fun h =>
  match m h with
  | mkOutcome l1 h1 (inl e) => mkOutcome l1 h1 (inl e)
  | mkOutcome l1 h1 (inr a) =>
      match f a h1 with
      | mkOutcome l2 h2 r => mkOutcome (l1 ++ l2) h2 r
      end
  end.

(** [try { body } catch (error) { handler }] *)
Definition try_catch {A} (body : M A) (handler : exn -> M A) : M A := fun h =>
  match body h with
  | mkOutcome l1 h1 (inl e) =>
      match handler e h1 with
      | mkOutcome l2 h2 r => mkOutcome (l1 ++ l2) h2 r
      end
  | mkOutcome l1 h1 (inr a) => mkOutcome l1 h1 (inr a)
  end.

#[global] Instance M_ret : MRet M := @ret.
#[global] Instance M_bind : MBind M := fun A B f m => bind m f.

Definition call (e : event) : M unit := fun h => mkOutcome [Ev e] h (inr tt).

(** *** Arrays *)

Definition alloc (l : list ERC20Token) : M loc := fun h =>
  mkOutcome [] (mkHeap (arrays h ++ [l]) (tracker h)) (inr (length (arrays h))).

Definition read (a : loc) : M (list ERC20Token) := fun h =>
  match arrays h !! a with
  | Some l => mkOutcome [] h (inr l)
  | None => mkOutcome [] h (inl "TypeError")
  end.

(** [[...a]] *)
Definition spread (a : loc) : M loc := l ← read a; alloc l.

(** [a.some(p)] *)
Definition array_some (a : loc) (p : ERC20Token -> bool) : M bool :=
  l ← read a; mret (existsb p l).

(** [a.push(x)] *)
Definition array_push (a : loc) (x : ERC20Token) : M unit := fun h =>
  match arrays h !! a with
  | Some l => mkOutcome [] (mkHeap (<[a := l ++ [x]]> (arrays h)) (tracker h)) (inr tt)
  | None => mkOutcome [] h (inl "TypeError")
  end.

(** *** Promises *)

(** Runs the tasks of a [Promise.all].  Each task's calls are kept apart;
    the heap is handed from task to task in array order (the tasks of this
    program write to disjoint arrays and tracker keys). *)
Fixpoint settle (tasks : list (M unit)) (h : Heap)
    : list (list item) * Heap * option exn :=
  match tasks with
  | [] => ([], h, None)
  | t :: r =>
      match t h with
      | mkOutcome l1 h1 r1 =>
          match settle r h1 with
          | (logs, h', rejected) =>
              (l1 :: logs, h',
               match r1 with inl e => Some e | inr _ => rejected end)
          end
      end
  end.

(** [await Promise.all(tasks)]: rejects when one of the tasks rejects. *)
Definition promise_all (tasks : list (M unit)) : M unit := fun h =>
  match settle tasks h with
  | (logs, h', rejected) =>
      mkOutcome [All logs] h'
                (match rejected with Some e => inl e | None => inr tt end)
  end.

(** [task.catch(handler)] that nobody awaits. *)
Definition detach (task : M unit) (handler : exn -> M unit) : M unit := fun h =>
  match try_catch task handler h with
  | mkOutcome l1 h1 _ => mkOutcome [Detached l1] h1 (inr tt)
  end.

(** *** The progress tracker and the logger *)

Definition tracked (e : event)
    (f : gmap string ProgressTracker.ProgressState ->
         gmap string ProgressTracker.ProgressState) : M unit := fun h =>
  mkOutcome [Ev e] (mkHeap (arrays h) (f (tracker h))) (inr tt).

Definition progressTracker_start (key label : string) (total : nat)
    (cid : option Z) : M unit :=
  tracked (ProgressStart key label total cid)
          (ProgressTracker.start key label total cid).

Definition progressTracker_update (key : string) (processed : nat) : M unit :=
  tracked (ProgressUpdate key processed) (ProgressTracker.update key processed).

Definition progressTracker_increment (key : string) : M unit :=
  tracked (ProgressIncrement key) (ProgressTracker.increment key).

Definition progressTracker_complete (key : string) : M unit :=
  tracked (ProgressComplete key) (ProgressTracker.complete key).

Definition progressTracker_getStats : M ProgressTracker.Stats := fun h =>
  mkOutcome [Ev ProgressGetStats] h (inr (ProgressTracker.getStats (tracker h))).

Definition logger_error (msg : message) (error : exn) : M unit :=
  call (LoggerError msg error).
Definition logger_debug (msg : message) : M unit := call (LoggerDebug msg).
Definition logger_info (msg : message) : M unit := call (LoggerInfo msg).

(** ** PriceService *)

Definition ZERO_ADDRESS : string := "0x0000000000000000000000000000000000000000".

(** [chainId === 1 || chainId === 10 || chainId === 42161 || chainId === 8453] *)
Definition registered (chainId : Z) : bool :=
  (chainId =? 1)%Z || (chainId =? 10)%Z || (chainId =? 42161)%Z || (chainId =? 8453)%Z.

(** The object literal [wethAddresses], indexed by chain id; [None] is the
    [undefined] of a missing property. *)
Definition wethAddresses (chainId : Z) : option string :=
  if (chainId =? 1)%Z then Some "0xc02aaa39b223fe8d0a0e5c4f27ead9083c756cc2"
  else if (chainId =? 10)%Z then Some "0x4200000000000000000000000000000000000006"
  else if (chainId =? 42161)%Z then Some "0x82af49447d8a07e3bd95bd0d56f35241523fbab1"
  else if (chainId =? 8453)%Z then Some "0x4200000000000000000000000000000000000006"
  else None.

(** The token pushed when the wrapped-native address is missing. *)
Definition wrappedEther (wethAddress : string) (chainId : Z) : ERC20Token :=
  {| address := wethAddress;
     name := "Wrapped Ether";
     symbol := "WETH";
     decimals := 18;
     chainId := chainId |}.

Definition batchSize : nat := 500.
Definition processingKey : string := "processing-all".

(** [`chain-${chainId}`] *)
Definition chainKey (chainId : Z) : string := "chain-" +:+ pretty chainId.

Section PriceService.

(** The collaborators, taken as they answer: what [fetchPrices] resolves
    or rejects with, whether [storePrices] throws, what
    [discoverAllTokens] resolves or rejects with (the entries of the
    [Map] in insertion order). *)
Variable fetchPrices : Z -> list ERC20Token -> exn + list (string * Price).
Variable storePrices : Z -> list Price -> option exn.
Variable discoverAllTokens : bool -> exn + list (Z * list ERC20Token).

(** [await this.fetcher.fetchPrices(chainId, tokens)] *)
Definition fetcher_fetchPrices (chainId : Z) (tokens : loc)
    : M (list (string * Price)) :=
  l ← read tokens;
  call (FetchPrices chainId l);;
  match fetchPrices chainId l with
  | inl e => throw e
  | inr prices => mret prices
  end.

(** [getPriceStorage()]: the accessor of the storage singleton. *)
Definition getPriceStorage : M unit := mret tt.

(** [storage.storePrices(chainId, pricesArray)] *)
Definition storage_storePrices (chainId : Z) (pricesArray : list Price) : M unit :=
  call (StorePrices chainId pricesArray);;
  match storePrices chainId pricesArray with
  | Some e => throw e
  | None => mret tt
  end.

(** [await tokenDiscoveryService.discoverAllTokens(forceRefresh)] *)
Definition tokenDiscoveryService_discoverAllTokens (forceRefresh : bool)
    : M (list (Z * list ERC20Token)) :=
  call (DiscoverAllTokens forceRefresh);;
  match discoverAllTokens forceRefresh with
  | inl e => throw e
  | inr tokensByChain => mret tokensByChain
  end.

(** Lines 39-55: the zero-address alias of the wrapped-native price. *)
Definition aliasNative (chainId : Z) (prices : list (string * Price))
    : list (string * Price) :=
  if registered chainId then
    let wethPrice :=
      match wethAddresses chainId with
      | Some wethAddress => JS.get prices wethAddress
      | None => None
      end in
    match wethPrice with
    | Some wethPrice =>
        JS.set prices ZERO_ADDRESS (with_address wethPrice ZERO_ADDRESS)
    | None => prices
    end
  else prices.

Definition fetchAndStorePrices (chainId : Z) (tokens : loc) : M unit :=
  try_catch
    (tokensWithNative ← spread tokens;
     (if registered chainId then
        match wethAddresses chainId with
        | Some wethAddress =>
            present ← array_some tokensWithNative
                        (fun t => String.eqb (JS.toLowerCase (address t)) wethAddress);
            if negb present
            then array_push tokensWithNative (wrappedEther wethAddress chainId)
            else mret tt
        | None => mret tt
        end
      else mret tt);;
     prices ← fetcher_fetchPrices chainId tokensWithNative;
     getPriceStorage;;
     let prices := aliasNative chainId prices in
     let pricesArray := JS.values prices in
     if (0 <? length pricesArray)%nat
     then storage_storePrices chainId pricesArray
     else mret tt)
    (fun error => logger_error (ErrorFetchingPrices chainId) error).

(** [this.fetchAndStorePrices(chainId, batch)] for a batch made by
    [chunk]: the batch is an array object of its own. *)
Definition fetchAndStoreBatch (chainId : Z) (batch : list ERC20Token) : M unit :=
  tokens ← alloc batch; fetchAndStorePrices chainId tokens.

(** [for (const batchGroup of batchGroups) { ... }]; [index] is
    [batchGroups.indexOf(batchGroup)], the position of the group (the
    groups are distinct array objects, and [indexOf] compares by
    identity). *)
Fixpoint forOfBatchGroups (chainId : Z) (key : string) (tokens_length : nat)
    (batchGroups_length : nat) (index : nat)
    (batchGroups : list (list (list ERC20Token))) : M unit :=
  match batchGroups with
  | [] => mret tt
  | batchGroup :: rest =>
      promise_all (map (fetchAndStoreBatch chainId) batchGroup);;
      let processed :=
        Nat.min (index * 3 * batchSize + length batchGroup * batchSize)
                tokens_length in
      progressTracker_update key processed;;
      (if (index <? batchGroups_length - 1)%nat
       then call (SetTimeout 200)
       else mret tt);;
      forOfBatchGroups chainId key tokens_length batchGroups_length
                       (S index) rest
  end.

(** The body of the [async ([chainId, tokens]) => { ... }] mapped over the
    entries of [tokensByChain]. *)
Definition chainPromise (entry : Z * list ERC20Token) : M unit :=
  let '(chainId, tokens) := entry in
  if (length tokens =? 0)%nat then progressTracker_increment processingKey
  else
    let batches := Lodash.chunk tokens batchSize in
    progressTracker_start (chainKey chainId) "Fetching Prices"
                          (length tokens) (Some chainId);;
    let batchGroups := Lodash.chunk batches 3 in
    forOfBatchGroups chainId (chainKey chainId) (length tokens)
                     (length batchGroups) 0 batchGroups;;
    progressTracker_complete (chainKey chainId);;
    progressTracker_increment processingKey.

Definition fetchDiscoveredTokens (forceRefresh : bool) : M unit :=
  try_catch
    (tokensByChain ← tokenDiscoveryService_discoverAllTokens forceRefresh;
     let totalTokens :=
       fold_left (fun sum entry => sum + length (snd entry)) tokensByChain 0 in
     logger_debug (DiscoveryComplete (length tokensByChain) totalTokens);;
     progressTracker_start processingKey "Processing Chains"
                           (length tokensByChain) None;;
     promise_all (map chainPromise tokensByChain);;
     progressTracker_complete processingKey;;
     stats ← progressTracker_getStats;
     logger_info
       (PriceFetchComplete totalTokens
          (if (0 <? ProgressTracker.stats_errors stats)%nat
           then Some (ProgressTracker.stats_errors stats) else None)))
    (fun error => logger_error ErrorFetchingDiscoveredTokens error).

(** [Date.now() % 3600000 < intervalMs]; [%] is the remainder that takes
    the sign of the dividend. *)
Definition shouldRediscover (now intervalMs : Z) : bool :=
  (Z.rem now 3600000 <? intervalMs)%Z.

(** The callback of [setInterval], run when the clock reads [now]. *)
Definition onInterval (intervalMs now : Z) : M unit :=
  detach (fetchDiscoveredTokens (shouldRediscover now intervalMs))
         (fun error => logger_error ErrorPeriodicPriceFetch error).

(** The timer firing at the clock readings [ticks]. *)
Fixpoint timer (intervalMs : Z) (ticks : list Z) : M unit :=
  match ticks with
  | [] => mret tt
  | now :: rest => onInterval intervalMs now;; timer intervalMs rest
  end.

Definition startPeriodicFetch (intervalMs : Z) (ticks : list Z) : M unit :=
  logger_info (StartingPriceService intervalMs);;
  detach (fetchDiscoveredTokens true)
         (fun error => logger_error ErrorInitialPriceFetch error);;
  call (SetInterval intervalMs);;
  timer intervalMs ticks.

End PriceService.

(** ** Reading a run *)

(** The calls a run made itself, outside the tasks it awaited or detached. *)
Definition own (l : list item) : list event :=
  flat_map (fun i => match i with Ev e => [e] | _ => [] end) l.

(** Every call of a run, the tasks' calls included, task after task. *)
Fixpoint flatten_item (i : item) : list event :=
  match i with
  | Ev e => [e]
  | All tasks => flat_map (flat_map flatten_item) tasks
  | Detached task => flat_map flatten_item task
  end.

Definition flatten (l : list item) : list event := flat_map flatten_item l.

(** The tasks of the [Promise.all]s of a run, one list per [Promise.all]. *)
Definition awaited (l : list item) : list (list (list item)) :=
  flat_map (fun i => match i with All tasks => [tasks] | _ => [] end) l.

(** The promises a run started without awaiting them. *)
Definition detached (l : list item) : list (list item) :=
  flat_map (fun i => match i with Detached task => [task] | _ => [] end) l.

Definition fetch_calls (l : list event) : list (Z * list ERC20Token) :=
  flat_map (fun e => match e with FetchPrices c ts => [(c, ts)] | _ => [] end) l.

Definition store_calls (l : list event) : list (Z * list Price) :=
  flat_map (fun e => match e with StorePrices c ps => [(c, ps)] | _ => [] end) l.

Definition discover_calls (l : list event) : list bool :=
  flat_map (fun e => match e with DiscoverAllTokens f => [f] | _ => [] end) l.

Definition logged_errors (l : list event) : list (message * exn) :=
  flat_map (fun e => match e with LoggerError m x => [(m, x)] | _ => [] end) l.

Definition progress_updates (l : list event) : list (string * nat) :=
  flat_map (fun e => match e with ProgressUpdate k n => [(k, n)] | _ => [] end) l.

Definition is_tracker_call (e : event) : bool :=
  match e with
  | ProgressStart _ _ _ _ | ProgressUpdate _ _ | ProgressIncrement _
  | ProgressComplete _ | ProgressGetStats => true
  | _ => false
  end.

Definition tracker_calls (l : list event) : list event :=
  List.filter is_tracker_call l.


(** What [fetchAndStorePrices] hands to the fetcher for an array holding
    [tokens]: the copy, with the wrapped-native token pushed when missing. *)
Definition tokensWithNative (chainId : Z) (tokens : list ERC20Token)
    : list ERC20Token :=
  if registered chainId then
    match wethAddresses chainId with
    | Some wethAddress =>
        if negb (existsb (fun t => String.eqb (JS.toLowerCase (address t)) wethAddress)
                         tokens)
        then tokens ++ [wrappedEther wethAddress chainId]
        else tokens
    | None => tokens
    end
  else tokens.

(** The calls of one fetch-and-store cycle that sends [sent] to the
    fetcher. *)
Definition cycle_calls
    (fetchPrices : Z -> list ERC20Token -> exn + list (string * Price))
    (storePrices : Z -> list Price -> option exn)
    (chainId : Z) (sent : list ERC20Token) : list event :=
  FetchPrices chainId sent ::
  match fetchPrices chainId sent with
  | inl e => [LoggerError (ErrorFetchingPrices chainId) e]
  | inr prices =>
      let pricesArray := JS.values (aliasNative chainId prices) in
      if (0 <? length pricesArray)%nat then
        StorePrices chainId pricesArray ::
        match storePrices chainId pricesArray with
        | Some e => [LoggerError (ErrorFetchingPrices chainId) e]
        | None => []
        end
      else []
  end.

(** The calls of the task [fetchAndStorePrices(chainId, batch)]. *)
Definition batch_task
    (fetchPrices : Z -> list ERC20Token -> exn + list (string * Price))
    (storePrices : Z -> list Price -> option exn)
    (chainId : Z) (batch : list ERC20Token) : list item :=
  map Ev (cycle_calls fetchPrices storePrices chainId (tokensWithNative chainId batch)).

(** The value the loop reports after the group at position [index]. *)
Definition processed_after (index : nat) (batchGroup : list (list ERC20Token))
    (tokens_length : nat) : nat :=
  Nat.min (index * 3 * batchSize + length batchGroup * batchSize) tokens_length.

(** What the loop over the batch groups leaves behind, from position
    [index] on. *)
Fixpoint governor_log
    (fetchPrices : Z -> list ERC20Token -> exn + list (string * Price))
    (storePrices : Z -> list Price -> option exn)
    (chainId : Z) (key : string) (tokens_length batchGroups_length index : nat)
    (batchGroups : list (list (list ERC20Token))) : list item :=
  match batchGroups with
  | [] => []
  | batchGroup :: rest =>
      All (map (batch_task fetchPrices storePrices chainId) batchGroup)
      :: Ev (ProgressUpdate key (processed_after index batchGroup tokens_length))
      :: (if (index <? batchGroups_length - 1)%nat then [Ev (SetTimeout 200)] else [])
      ++ governor_log fetchPrices storePrices chainId key tokens_length
                      batchGroups_length (S index) rest
  end.

Definition progress_increments (l : list event) : list string :=
  flat_map (fun e => match e with ProgressIncrement k => [k] | _ => [] end) l.

Definition timeouts (l : list event) : list Z :=
  flat_map (fun e => match e with SetTimeout ms => [ms] | _ => [] end) l.

(** A computation that, from every heap, makes the calls [log] and returns
    [a]. *)
Definition runs_to {A} (m : M A) (log : list item) (a : A) : Prop :=
  forall h, exists h', m h = mkOutcome log h' (inr a).


(** ** Sample collaborators and inputs *)

Definition WETH_MAINNET : string := "0xc02aaa39b223fe8d0a0e5c4f27ead9083c756cc2".

Definition sample_token (a : string) : ERC20Token := mkToken a "Token" "TKN" 18 1.

Definition sample_tokens : list ERC20Token :=
  [sample_token "0xAA"; sample_token "0xbb"].

Definition sample_heap : Heap := mkHeap [sample_tokens] ∅.

(** A fetcher that prices every token it is asked for at 7. *)
Definition fetch_all (c : Z) (l : list ERC20Token) : exn + list (string * Price) :=
  inr (map (fun t => (address t, mkPrice (address t) 7 c "sample")) l).

(** A fetcher that finds no price. *)
Definition fetch_none (c : Z) (l : list ERC20Token) : exn + list (string * Price) :=
  inr [].

(** A fetcher that rejects. *)
Definition fetch_fails (c : Z) (l : list ERC20Token) : exn + list (string * Price) :=
  inl "fetch failed".

(** A fetcher that rejects batches of fewer than 500 tokens. *)
Definition fetch_fails_short (c : Z) (l : list ERC20Token)
    : exn + list (string * Price) :=
  if (length l <? 500)%nat then inl "fetch failed" else inr [].

Definition native_record : Price := mkPrice ZERO_ADDRESS 5 1 "native".
Definition weth_record : Price := mkPrice WETH_MAINNET 7 1 "weth".

(** A fetcher that returns a zero-address record of its own next to the
    wrapped-native one. *)
Definition fetch_with_native (c : Z) (l : list ERC20Token)
    : exn + list (string * Price) :=
  inr [(ZERO_ADDRESS, native_record); (WETH_MAINNET, weth_record)].

Definition store_ok (c : Z) (l : list Price) : option exn := None.

Definition store_fails (c : Z) (l : list Price) : option exn := Some "store failed".

Definition tokens_of_length (n : nat) : list ERC20Token :=
  map (fun i => sample_token "0x01") (seq 0 n).

Definition discover_sample (forceRefresh : bool) : exn + list (Z * list ERC20Token) :=
  inr [(1%Z, tokens_of_length 3); (10%Z, [])].

Definition progress_starts (l : list event) : list (string * string * nat * option Z) :=
  flat_map (fun e => match e with
                     | ProgressStart k lbl n c => [(k, lbl, n, c)]
                     | _ => []
                     end) l.

Definition progress_completes (l : list event) : list string :=
  flat_map (fun e => match e with ProgressComplete k => [k] | _ => [] end) l.

(** What the task of one network leaves behind. *)
Definition chain_log
    (fetchPrices : Z -> list ERC20Token -> exn + list (string * Price))
    (storePrices : Z -> list Price -> option exn)
    (entry : Z * list ERC20Token) : list item :=
  let '(chainId, tokens) := entry in
  let groups := Lodash.chunk (Lodash.chunk tokens batchSize) 3 in
  match tokens with
  | [] => [Ev (ProgressIncrement processingKey)]
  | _ :: _ =>
      Ev (ProgressStart (chainKey chainId) "Fetching Prices" (length tokens)
                        (Some chainId))
      :: governor_log fetchPrices storePrices chainId (chainKey chainId)
                      (length tokens) (length groups) 0 groups
      ++ [Ev (ProgressComplete (chainKey chainId));
          Ev (ProgressIncrement processingKey)]
  end.


(** ** The interval handle of the service *)

Module Interval.

(** The field [fetchInterval] of [PriceService] with the part of the event
    loop it refers to: [armed] are the handles of the intervals that have
    not been cleared, [fresh] is the handle the next [setInterval] returns.
    [None] is the [null] of the field. *)
Record State : Type := mkState {
  fetchInterval : option nat;
  armed : list nat;
  fresh : nat
}.

Inductive call : Type :=
| SetIntervalCall (ms : Z) (handle : nat)
| ClearIntervalCall (handle : nat)
| LoggerInfoStopped.

(** [clearInterval(handle)] *)
Definition clearInterval (handle : nat) (l : list nat) : list nat :=
  List.filter (fun x => negb (x =? handle)%nat) l.

(** Lines 127-132, the handle only:
    [this.fetchInterval = setInterval(..., intervalMs)]. *)
Definition startPeriodicFetch (intervalMs : Z) (s : State) : list call * State :=
  ([SetIntervalCall intervalMs (fresh s)],
   mkState (Some (fresh s)) (fresh s :: armed s) (S (fresh s))).

(** Lines 135-141. *)
Definition stopPeriodicFetch (s : State) : list call * State :=
  match fetchInterval s with
  | Some handle =>
      ([ClearIntervalCall handle; LoggerInfoStopped],
       mkState None (clearInterval handle (armed s)) (fresh s))
  | None => ([], s)
  end.

(** Handles in use are below the next fresh one. *)
Definition wf (s : State) : Prop :=
  (forall x, In x (armed s) -> x < fresh s)%nat
  /\ (forall x, fetchInterval s = Some x -> x < fresh s)%nat.

End Interval.

(** A discovery that rejects. *)
Definition discover_fails (forceRefresh : bool) : exn + list (Z * list ERC20Token) :=
  inl "discovery failed".

(** The clock readings of a timer that fires every [period] milliseconds
    from [start] on, [n] times. *)
Definition regular_ticks (start period : Z) (n : nat) : list Z :=
  map (fun k => (start + Z.of_nat k * period)%Z) (seq 0 n).

(** * Properties *)

Ltac Zify.zify_post_hook ::= Z.to_euclidean_division_equations.

Local Open Scope nat_scope.

(** ** lodash's [chunk] *)

Section ChunkFacts.
Context {A : Type}.
Implicit Types (l array : list A) (size : nat).
Import Lodash.

Lemma ceil_div_0 size : ceil_div 0 size = 0.
Proof.
  unfold ceil_div. destruct size as [|s]; [reflexivity|].
  apply Nat.div_small. lia.
Qed.

Lemma ceil_div_step n size :
  1 <= size -> 0 < n -> ceil_div n size = S (ceil_div (n - size) size).
Proof.
  intros Hs Hn. unfold ceil_div.
  destruct (Nat.le_gt_cases n size) as [Hle|Hgt].
  - replace (n - size) with 0 by lia.
    rewrite (Nat.div_small (0 + _)) by lia.
    replace (n + (size - 1)) with ((n - 1) + 1 * size) by lia.
    rewrite Nat.div_add by lia. rewrite Nat.div_small by lia. reflexivity.
  - replace (n + (size - 1)) with ((n - size + (size - 1)) + 1 * size) by lia.
    rewrite Nat.div_add by lia. lia.
Qed.

Lemma chunk_loop_shift slots size : forall array index,
  chunk_loop slots array size index = chunk_loop slots (drop index array) size 0.
Proof.
  induction slots as [|slots IH]; intros array index; [reflexivity|].
  cbn [chunk_loop]. rewrite length_drop.
  destruct (Nat.ltb_spec index (length array));
    destruct (Nat.ltb_spec 0 (length array - index)); try lia; [|reflexivity].
  f_equal.
  - unfold baseSlice. rewrite drop_0. f_equal. lia.
  - rewrite (IH array (index + size)), (IH (drop index array) (0 + size)).
    rewrite drop_drop. reflexivity.
Qed.

Lemma chunk_nil size : chunk (@nil A) size = [].
Proof. reflexivity. Qed.

Lemma chunk_unfold l size :
  1 <= size -> l <> [] -> chunk l size = take size l :: chunk (drop size l) size.
Proof.
  intros Hs Hl. unfold chunk.
  assert (0 < length l) as Hn by (destruct l; [congruence | simpl; lia]).
  replace (length l =? 0) with false by (symmetry; apply Nat.eqb_neq; lia).
  replace (size <? 1) with false by (symmetry; apply Nat.ltb_ge; lia).
  cbn [orb]. rewrite (ceil_div_step (length l) size Hs Hn). cbn [chunk_loop].
  replace (0 <? length l) with true by (symmetry; apply Nat.ltb_lt; lia).
  f_equal.
  - unfold baseSlice. rewrite drop_0. f_equal. lia.
  - rewrite chunk_loop_shift. cbn [Nat.add]. rewrite length_drop.
    destruct (length l - size =? 0) eqn:E; [|reflexivity].
    apply Nat.eqb_eq in E. rewrite E, ceil_div_0. reflexivity.
Qed.

(** Induction along the chunks of a list. *)
Lemma chunk_ind size (Hs : 1 <= size) (P : list A -> Prop) :
  P [] ->
  (forall l, l <> [] -> P (drop size l) -> P l) ->
  forall l, P l.
Proof.
  intros H0 Hstep l.
  remember (length l) as n eqn:Hn. revert l Hn.
  induction n as [n IH] using lt_wf_ind. intros l Hn.
  destruct l as [|x l']; [exact H0|].
  apply Hstep; [discriminate|].
  apply (IH (length (drop size (x :: l')))); [|reflexivity].
  rewrite length_drop. subst n. simpl. lia.
Qed.

Lemma concat_chunk l size : 1 <= size -> concat (chunk l size) = l.
Proof.
  intros Hs. induction l as [|l Hl IH] using (chunk_ind size Hs); [reflexivity|].
  rewrite chunk_unfold by assumption. cbn [concat]. rewrite IH. apply take_drop.
Qed.

Lemma length_chunk l size :
  1 <= size -> length (chunk l size) = ceil_div (length l) size.
Proof.
  intros Hs. induction l as [|l Hl IH] using (chunk_ind size Hs).
  - rewrite chunk_nil, ceil_div_0. reflexivity.
  - rewrite chunk_unfold by assumption. cbn [length]. rewrite IH, length_drop.
    symmetry. apply ceil_div_step; [assumption|].
    destruct l; [congruence | simpl; lia].
Qed.

Lemma drop_chunk l size m :
  1 <= size -> drop m (chunk l size) = chunk (drop (m * size) l) size.
Proof.
  intros Hs. revert l. induction m as [|m IH]; intros l.
  - rewrite !drop_0. reflexivity.
  - destruct l as [|x l'].
    + rewrite drop_nil, chunk_nil, drop_nil. reflexivity.
    + rewrite chunk_unfold by (assumption || discriminate).
      cbn [drop]. rewrite IH, drop_drop. reflexivity.
Qed.

Lemma concat_take_chunk l size k :
  1 <= size -> concat (take k (chunk l size)) = take (k * size) l.
Proof.
  intros Hs. revert l. induction k as [|k IH]; intros l.
  - rewrite !take_0. reflexivity.
  - destruct l as [|x l'].
    + rewrite chunk_nil, !take_nil. reflexivity.
    + rewrite chunk_unfold by (assumption || discriminate).
      cbn [take concat]. rewrite IH.
      replace (S k * size) with (size + k * size) by lia.
      apply take_take_drop.
Qed.

Lemma lookup_chunk l size i :
  1 <= size ->
  chunk l size !! i =
    if i * size <? length l then Some (take size (drop (i * size) l)) else None.
Proof.
  intros Hs. rewrite <- (Nat.add_0_r i) at 1. rewrite <- lookup_drop.
  rewrite drop_chunk by assumption.
  destruct (Nat.ltb_spec (i * size) (length l)) as [E|E].
  - rewrite chunk_unfold; [reflexivity|assumption|].
    intros Hnil. apply (f_equal length) in Hnil.
    rewrite length_drop in Hnil. simpl in Hnil. lia.
  - rewrite drop_ge by assumption. reflexivity.
Qed.

Lemma length_chunk_lookup l b size i :
  1 <= size -> chunk l size !! i = Some b ->
  i * size < length l /\ length b = Nat.min size (length l - i * size).
Proof.
  intros Hs. rewrite lookup_chunk by assumption.
  destruct (Nat.ltb_spec (i * size) (length l)) as [E|E]; [|discriminate].
  intros [= <-]. split; [assumption|].
  rewrite length_take, length_drop. reflexivity.
Qed.
End ChunkFacts.

(** C6. For a token list of length N, [chunk(tokens, 500)] has ceil(N/500)
    batches (the least count whose 500-fold covers N), their concatenation
    in order is the list, every batch but the last has 500 tokens and the
    last has N mod 500 (500 when N is a multiple of 500), no batch is empty,
    and there is no batch at all when N = 0; [chunk(batches, 3)] has
    ceil(ceil(N/500)/3) groups of at most 3 batches each, which concatenate
    to the batches. *)
Theorem C6_batches_and_groups (tokens : list ERC20Token) :
  let N := length tokens in
  let batches := Lodash.chunk tokens batchSize in
  let groups := Lodash.chunk batches 3 in
  (length batches = Lodash.ceil_div N 500
   /\ N <= 500 * length batches
   /\ (0 < N -> 500 * (length batches - 1) < N))
  /\ concat batches = tokens
  /\ (forall i b, batches !! i = Some b ->
        length b = if (i + 1 <? length batches)%nat then 500
                   else if (N mod 500 =? 0)%nat then 500 else N mod 500)
  /\ (forall b, In b batches -> b <> [])
  /\ (N = 0 -> batches = [])
  /\ (length groups = Lodash.ceil_div (Lodash.ceil_div N 500) 3
      /\ length batches <= 3 * length groups
      /\ (0 < length batches -> 3 * (length groups - 1) < length batches))
  /\ (forall g, In g groups -> length g <= 3)
  /\ concat groups = batches.
Proof.
  intros N batches groups.
  assert (Hb : length batches = Lodash.ceil_div N 500)
    by (apply length_chunk; unfold batchSize; lia).
  assert (Hg : length groups = Lodash.ceil_div (length batches) 3)
    by (apply length_chunk; lia).
  assert (Hlen : forall i b, batches !! i = Some b ->
            i * 500 < N /\ length b = Nat.min 500 (N - i * 500)).
  { intros i b Hi.
    apply (length_chunk_lookup tokens b batchSize i); [unfold batchSize; lia | exact Hi]. }
  assert (HN : N = 0 -> batches = []).
  { intros HN. subst batches N. destruct tokens; [reflexivity | discriminate]. }
  assert (Hcb : concat batches = tokens)
    by (apply concat_chunk; unfold batchSize; lia).
  assert (Hcg : concat groups = batches) by (apply concat_chunk; lia).
  assert (Hgl : forall i g, groups !! i = Some g -> length g <= 3).
  { intros i g Hi. apply length_chunk_lookup in Hi as [_ ->]; lia. }
  clearbody N batches groups.
  unfold Lodash.ceil_div in *. simpl Nat.sub in *.
  repeat split.
  - exact Hb.
  - rewrite Hb. lia.
  - rewrite Hb. lia.
  - exact Hcb.
  - intros i b Hi. destruct (Hlen i b Hi) as [Hlt ->]. rewrite Hb.
    destruct (Nat.ltb_spec (i + 1) ((N + 499) `div` 500));
      destruct (Nat.eqb_spec (N `mod` 500) 0); lia.
  - intros b Hin ->. apply list_elem_of_In, list_elem_of_lookup in Hin as [i Hi].
    destruct (Hlen i [] Hi) as [Hlt Hz]. cbn [length] in Hz. lia.
  - exact HN.
  - rewrite Hg, Hb. reflexivity.
  - rewrite Hg. lia.
  - rewrite Hg. lia.
  - intros g Hin. apply list_elem_of_In, list_elem_of_lookup in Hin as [i Hi]. eauto.
  - exact Hcg.
Qed.

(** ** JavaScript maps *)

Section MapFacts.
Context {V : Type}.
Implicit Types (m : list (string * V)) (k : string) (v : V).

Lemma get_set_eq m k v : JS.get (JS.set m k v) k = Some v.
Proof.
  induction m as [|[k' v'] m IH]; simpl.
  - rewrite String.eqb_refl. reflexivity.
  - destruct (String.eqb_spec k' k) as [->|Hne]; simpl.
    + rewrite String.eqb_refl. reflexivity.
    + destruct (String.eqb_spec k' k); [contradiction | exact IH].
Qed.

Lemma get_set_ne m k k' v : k <> k' -> JS.get (JS.set m k v) k' = JS.get m k'.
Proof.
  intros Hne. induction m as [|[k0 v0] m IH]; simpl.
  - destruct (String.eqb_spec k k'); [contradiction | reflexivity].
  - destruct (String.eqb_spec k0 k) as [->|Hne0]; simpl.
    + destruct (String.eqb_spec k k'); [contradiction | reflexivity].
    + destruct (String.eqb_spec k0 k'); [reflexivity | exact IH].
Qed.

Lemma get_values m k v : JS.get m k = Some v -> In v (JS.values m).
Proof.
  induction m as [|[k' v'] m IH]; simpl; [discriminate|].
  destruct (String.eqb k' k); [intros [= ->]; left; reflexivity | right; auto].
Qed.

Lemma length_set_present m k v v0 :
  JS.get m k = Some v0 -> length (JS.set m k v) = length m.
Proof.
  induction m as [|[k' v'] m IH]; simpl; [discriminate|].
  destruct (String.eqb k' k); simpl; [reflexivity | intros H; f_equal; auto].
Qed.

Lemma set_absent m k v : JS.get m k = None -> JS.set m k v = m ++ [(k, v)].
Proof.
  induction m as [|[k' v'] m IH]; simpl; [reflexivity|].
  destruct (String.eqb k' k); [discriminate | intros H; f_equal; auto].
Qed.
Lemma set_in_place before k v0 v after :
  JS.get before k = None ->
  JS.set (before ++ (k, v0) :: after) k v = before ++ (k, v) :: after.
Proof.
  induction before as [|[k' v'] before IH]; simpl.
  - intros _. rewrite String.eqb_refl. reflexivity.
  - destruct (String.eqb k' k); [discriminate | intros H; f_equal; auto].
Qed.
End MapFacts.

(** ** The registry of wrapped-native addresses *)

Lemma registered_iff chainId :
  registered chainId = true <-> In chainId [1; 10; 42161; 8453]%Z.
Proof.
  unfold registered. rewrite !orb_true_iff, !Z.eqb_eq. simpl. intuition congruence.
Qed.

Lemma wethAddresses_registered chainId W :
  wethAddresses chainId = Some W -> registered chainId = true.
Proof.
  unfold wethAddresses, registered.
  destruct (chainId =? 1)%Z, (chainId =? 10)%Z, (chainId =? 42161)%Z,
    (chainId =? 8453)%Z; simpl; congruence.
Qed.

Lemma registered_wethAddresses chainId :
  registered chainId = true -> exists W, wethAddresses chainId = Some W.
Proof.
  unfold wethAddresses, registered.
  destruct (chainId =? 1)%Z, (chainId =? 10)%Z, (chainId =? 42161)%Z,
    (chainId =? 8453)%Z; simpl; eauto; discriminate.
Qed.

Lemma aliasNative_registered chainId W prices :
  wethAddresses chainId = Some W ->
  aliasNative chainId prices =
    match JS.get prices W with
    | Some wethPrice =>
        JS.set prices ZERO_ADDRESS (with_address wethPrice ZERO_ADDRESS)
    | None => prices
    end.
Proof.
  intros HW. unfold aliasNative.
  rewrite (wethAddresses_registered _ _ HW), HW. reflexivity.
Qed.

(** ** One fetch-and-store cycle *)

Lemma own_Ev (l : list event) : own (map Ev l) = l.
Proof. induction l; simpl; [reflexivity | f_equal; assumption]. Qed.

Lemma flatten_Ev (l : list event) : flatten (map Ev l) = l.
Proof. induction l; simpl; [reflexivity | f_equal; assumption]. Qed.

Lemma lookup_last {A} (a : list A) (x : A) : (a ++ [x]) !! length a = Some x.
Proof. induction a; simpl; auto. Qed.

Lemma insert_last {A} (a : list A) (x y : A) :
  <[length a := y]> (a ++ [x]) = a ++ [y].
Proof. induction a; simpl; [reflexivity | f_equal; assumption]. Qed.

Ltac run_monad :=
  unfold spread, fetcher_fetchPrices, storage_storePrices, getPriceStorage,
    array_some, array_push, read, alloc, logger_error, call, throw,
    mbind, mret, M_bind, M_ret, bind, ret;
  cbn [result events heap arrays tracker].

Ltac run_tail fetchPrices storePrices :=
  rewrite ?lookup_last; cbn [result events heap arrays tracker];
  rewrite ?insert_last, ?lookup_last; cbn [result events heap arrays tracker app];
  destruct (fetchPrices _ _); [reflexivity|];
  cbn zeta; destruct (0 <? length _); [destruct (storePrices _ _)|]; reflexivity.

Section CycleFacts.
Variable fetchPrices : Z -> list ERC20Token -> exn + list (string * Price).
Variable storePrices : Z -> list Price -> option exn.

Lemma fetchAndStorePrices_run chainId tokens h l :
  arrays h !! tokens = Some l ->
  fetchAndStorePrices fetchPrices storePrices chainId tokens h =
  mkOutcome
    (map Ev (cycle_calls fetchPrices storePrices chainId (tokensWithNative chainId l)))
    (mkHeap (arrays h ++ [tokensWithNative chainId l]) (tracker h))
    (inr tt).
Proof.
  intros Hl.
  unfold fetchAndStorePrices, try_catch, cycle_calls, tokensWithNative.
  run_monad. rewrite Hl. cbn [result events heap arrays tracker].
  destruct (registered chainId); cbn [result events heap arrays tracker];
    [|run_tail fetchPrices storePrices].
  destruct (wethAddresses chainId); cbn [result events heap arrays tracker];
    [|run_tail fetchPrices storePrices].
  rewrite lookup_last. cbn [result events heap arrays tracker].
  destruct (existsb _ l); cbn [result events heap arrays tracker negb];
    run_tail fetchPrices storePrices.
Qed.

Lemma fetchAndStorePrices_dangling chainId tokens h :
  arrays h !! tokens = None ->
  fetchAndStorePrices fetchPrices storePrices chainId tokens h =
  mkOutcome [Ev (LoggerError (ErrorFetchingPrices chainId) "TypeError")] h (inr tt).
Proof.
  intros Hl. unfold fetchAndStorePrices, try_catch. run_monad.
  rewrite Hl. reflexivity.
Qed.

Lemma fetchAndStoreBatch_run chainId batch h :
  fetchAndStoreBatch fetchPrices storePrices chainId batch h =
  mkOutcome
    (map Ev (cycle_calls fetchPrices storePrices chainId
                           (tokensWithNative chainId batch)))
    (mkHeap (arrays h ++ [batch; tokensWithNative chainId batch]) (tracker h))
    (inr tt).
Proof.
  unfold fetchAndStoreBatch. run_monad.
  rewrite (fetchAndStorePrices_run chainId (length (arrays h)) _ batch)
    by apply lookup_last.
  cbn [result events heap arrays tracker]. rewrite <- app_assoc. reflexivity.
Qed.
End CycleFacts.

Section CycleClaims.
Variable fetchPrices : Z -> list ERC20Token -> exn + list (string * Price).
Variable storePrices : Z -> list Price -> option exn.


Lemma fetch_calls_cycle chainId sent :
  fetch_calls (cycle_calls fetchPrices storePrices chainId sent) = [(chainId, sent)].
Proof.
  unfold cycle_calls. destruct (fetchPrices chainId sent); [reflexivity|].
  cbn zeta. destruct (0 <? _); [|reflexivity].
  destruct (storePrices _ _); reflexivity.
Qed.

Lemma store_calls_cycle chainId sent :
  store_calls (cycle_calls fetchPrices storePrices chainId sent) =
    match fetchPrices chainId sent with
    | inl _ => []
    | inr prices =>
        match JS.values (aliasNative chainId prices) with
        | [] => []
        | p :: ps => [(chainId, p :: ps)]
        end
    end.
Proof.
  unfold cycle_calls. destruct (fetchPrices chainId sent); [reflexivity|].
  cbn zeta. destruct (JS.values _); [reflexivity|]. cbn [length Nat.ltb Nat.leb].
  destruct (storePrices _ _); reflexivity.
Qed.


(** C5. With the caller's array holding [l]: on a registered network
    (chain id 1, 10, 42161 or 8453, wrapped-native address W), when no
    token of [l] has an address that lower-cases to W the fetcher is
    called once, with [l] followed by the token (W, Wrapped Ether, WETH,
    18, chain id); when one has, the fetcher is called once with [l]; on
    any other network the fetcher is called once with [l]. *)
Theorem C5_tokens_sent_to_fetcher chainId tokens h l :
  arrays h !! tokens = Some l ->
  let sent := fetch_calls (own (events (fetchAndStorePrices fetchPrices storePrices
                                       chainId tokens h))) in
  (In chainId [1; 10; 42161; 8453]%Z ->
     exists W, wethAddresses chainId = Some W
       /\ ((forall t, In t l -> JS.toLowerCase (address t) <> W) ->
             sent = [(chainId, l ++ [mkToken W "Wrapped Ether" "WETH" 18 chainId])])
       /\ ((exists t, In t l /\ JS.toLowerCase (address t) = W) ->
             sent = [(chainId, l)]))
  /\ (~ In chainId [1; 10; 42161; 8453]%Z -> sent = [(chainId, l)]).
Proof.
  intros Hl sent. subst sent.
  rewrite (fetchAndStorePrices_run _ _ _ _ _ _ Hl). cbn [events].
  rewrite own_Ev, fetch_calls_cycle. unfold tokensWithNative. split.
  - intros Hreg. apply registered_iff in Hreg.
    destruct (registered_wethAddresses _ Hreg) as [W HW].
    exists W. rewrite Hreg, HW. split; [reflexivity|]. split.
    + intros Hnone.
      destruct (existsb _ l) eqn:E; [|reflexivity].
      apply existsb_exists in E as (t & Hin & Heq).
      apply String.eqb_eq in Heq. destruct (Hnone t Hin Heq).
    + intros (t & Hin & Heq).
      replace (existsb _ l) with true; [reflexivity|].
      symmetry. apply existsb_exists. exists t. split; [assumption|].
      apply String.eqb_eq. assumption.
  - intros Hnot. destruct (registered chainId) eqn:E; [|reflexivity].
    apply registered_iff in E. contradiction.
Qed.

(** C10. Every array of the heap, the caller's token array among them,
    holds the same elements in the same order after [fetchAndStorePrices]
    as before: the wrapped-native token is pushed onto a copy. *)
Theorem C10_input_array_not_mutated chainId tokens h a l :
  arrays h !! a = Some l ->
  arrays (heap (fetchAndStorePrices fetchPrices storePrices chainId tokens h)) !! a
= Some l.
Proof.
  intros Ha.
  destruct (arrays h !! tokens) as [l0|] eqn:Hl.
  - rewrite (fetchAndStorePrices_run _ _ _ _ _ _ Hl). cbn [heap arrays].
    apply lookup_app_l_Some. exact Ha.
  - rewrite (fetchAndStorePrices_dangling _ _ _ _ _ Hl). exact Ha.
Qed.
End CycleClaims.

Lemma C5_witness :
  sample_heap.(arrays) !! 0 = Some sample_tokens
  /\ fetch_calls (own (events (fetchAndStorePrices fetch_all store_ok 1 0 sample_heap)))
     = [(1%Z, sample_tokens ++ [mkToken WETH_MAINNET "Wrapped Ether" "WETH" 18 1])].
Proof.
  split; [reflexivity|].
  destruct (C5_tokens_sent_to_fetcher fetch_all store_ok 1 0 sample_heap
              sample_tokens eq_refl) as [Hreg _].
  destruct Hreg as (W & HW & Habsent & _); [simpl; auto|].
  injection HW as <-. apply Habsent.
  intros t [<-|[<-|[]]]; vm_compute; discriminate.
Defined.

Lemma C10_witness :
  arrays sample_heap !! 0 = Some sample_tokens
  /\ arrays (heap (fetchAndStorePrices fetch_all store_ok 1 0 sample_heap)) !! 0
     = Some sample_tokens.
Proof.
  split; [reflexivity|].
  apply (C10_input_array_not_mutated fetch_all store_ok 1 0 sample_heap 0
           sample_tokens).
  reflexivity.
Defined.

Section AliasClaims.
Variable fetchPrices : Z -> list ERC20Token -> exn + list (string * Price).
Variable storePrices : Z -> list Price -> option exn.

(** C1. On a registered network with wrapped-native address W, once the
    fetcher has answered with a price map: if the map has a record for W,
    [storePrices] is called once with the values of a map whose
    zero-address record carries W's price and the zero address as its
    address field; if the map has no record for W, the aliasing leaves the
    map as fetched, and what is stored (if anything) are the fetched
    values. *)
Theorem C1_native_alias chainId W tokens h l prices :
  wethAddresses chainId = Some W ->
  arrays h !! tokens = Some l ->
  fetchPrices chainId (tokensWithNative chainId l) = inr prices ->
  let stored := store_calls (own (events (fetchAndStorePrices fetchPrices storePrices
                                       chainId tokens h))) in
  In chainId [1; 10; 42161; 8453]%Z
  /\ (forall r, JS.get prices W = Some r ->
        exists m z,
          stored = [(chainId, JS.values m)]
          /\ JS.get m ZERO_ADDRESS = Some z
          /\ In z (JS.values m)
          /\ price z = price r
          /\ price_address z = ZERO_ADDRESS)
  /\ (JS.get prices W = None ->
        aliasNative chainId prices = prices
        /\ (stored = [(chainId, JS.values prices)]
            \/ (stored = [] /\ prices = []))).
Proof.
  intros HW Hl Hfetch stored. subst stored.
  rewrite (fetchAndStorePrices_run _ _ _ _ _ _ Hl). cbn [events].
  rewrite own_Ev, store_calls_cycle, Hfetch.
  rewrite (aliasNative_registered _ _ _ HW).
  split; [apply registered_iff; eapply wethAddresses_registered; eassumption|].
  split.
  - intros r Hr. rewrite Hr.
    exists (JS.set prices ZERO_ADDRESS (with_address r ZERO_ADDRESS)),
           (with_address r ZERO_ADDRESS).
    pose proof (get_set_eq prices ZERO_ADDRESS (with_address r ZERO_ADDRESS)) as Hz.
    pose proof (get_values _ _ _ Hz) as Hin.
    repeat split; try assumption.
    destruct (JS.values _); [destruct Hin | reflexivity].
  - intros Hnone. rewrite Hnone. split; [reflexivity|].
    destruct prices as [|[k v] rest]; [right; split; reflexivity | left; reflexivity].
Qed.

(** C4, as the code has it. On a registered network with wrapped-native
    address W, once the fetcher has answered with a price map.  When the map
    has a record for W, [storePrices] is called once, with the values of the
    aliased map, whose zero-address record is W's record with the zero
    address as its address field; every other key keeps its record.  A
    zero-address record the fetcher returned is replaced in place: the
    array passed to [storePrices] is the fetched records in their order,
    with the alias in the position of the fetcher's zero-address record;
    without such a record the alias comes last.  When the map has no record
    for W, the map is left as fetched, a zero-address record included, and
    what is stored (if anything) are the fetched values. *)
Theorem C4_alias_replaces_zero_record chainId W tokens h l prices :
  wethAddresses chainId = Some W ->
  arrays h !! tokens = Some l ->
  fetchPrices chainId (tokensWithNative chainId l) = inr prices ->
  let stored := store_calls (own (events (fetchAndStorePrices fetchPrices storePrices
                                            chainId tokens h))) in
  (forall r, JS.get prices W = Some r ->
     stored = [(chainId, JS.values (aliasNative chainId prices))]
     /\ JS.get (aliasNative chainId prices) ZERO_ADDRESS
        = Some (with_address r ZERO_ADDRESS)
     /\ (forall k, k <> ZERO_ADDRESS ->
           JS.get (aliasNative chainId prices) k = JS.get prices k)
     /\ (forall before r0 after,
           prices = before ++ (ZERO_ADDRESS, r0) :: after ->
           JS.get before ZERO_ADDRESS = None ->
           aliasNative chainId prices
             = before ++ (ZERO_ADDRESS, with_address r ZERO_ADDRESS) :: after
           /\ stored = [(chainId, JS.values before
                                  ++ with_address r ZERO_ADDRESS :: JS.values after)])
     /\ (JS.get prices ZERO_ADDRESS = None ->
           stored = [(chainId, JS.values prices ++ [with_address r ZERO_ADDRESS])]))
  /\ (JS.get prices W = None ->
        aliasNative chainId prices = prices
        /\ (stored = [(chainId, JS.values prices)]
            \/ (stored = [] /\ prices = []))).
Proof.
  intros HW Hl Hfetch stored. subst stored.
  rewrite (fetchAndStorePrices_run _ _ _ _ _ _ Hl). cbn [events].
  rewrite own_Ev, store_calls_cycle, Hfetch.
  rewrite (aliasNative_registered _ _ _ HW). split.
  - intros r Hr. rewrite Hr.
    pose proof (get_set_eq prices ZERO_ADDRESS (with_address r ZERO_ADDRESS)) as Hz.
    assert (Hstored :
              match JS.values (JS.set prices ZERO_ADDRESS (with_address r ZERO_ADDRESS)) with
              | [] => []
              | p :: ps => [(chainId, p :: ps)]
              end
              = [(chainId, JS.values (JS.set prices ZERO_ADDRESS
                                        (with_address r ZERO_ADDRESS)))]).
    { pose proof (get_values _ _ _ Hz) as Hin.
      destruct (JS.values _); [destruct Hin | reflexivity]. }
    rewrite Hstored.
    split; [reflexivity|]. split; [exact Hz|]. split; [|split].
    + intros k Hk. apply get_set_ne. congruence.
    + intros before r0 after -> Hbefore.
      rewrite (set_in_place _ _ _ _ _ Hbefore). split; [reflexivity|].
      unfold JS.values. rewrite map_app. reflexivity.
    + intros Hnone. rewrite (set_absent _ _ _ Hnone).
      unfold JS.values. rewrite map_app. reflexivity.
  - intros Hnone. rewrite Hnone. split; [reflexivity|].
    destruct prices as [|[k v] rest]; [right; split; reflexivity | left; reflexivity].
Qed.

(** C9. [storePrices] is only ever called with a non-empty array; when
    the fetch succeeds and the aliased map has no record, the cycle
    consists of the fetch call alone: no call to storage, nothing logged,
    and the promise fulfils. *)
Theorem C9_store_only_when_nonempty chainId tokens h :
  let o := fetchAndStorePrices fetchPrices storePrices chainId tokens h in
  (forall c ps, In (c, ps) (store_calls (own (events o))) -> ps <> [])
  /\ (forall l prices,
        arrays h !! tokens = Some l ->
        fetchPrices chainId (tokensWithNative chainId l) = inr prices ->
        JS.values (aliasNative chainId prices) = [] ->
        events o = [Ev (FetchPrices chainId (tokensWithNative chainId l))]
        /\ store_calls (own (events o)) = []
        /\ logged_errors (own (events o)) = []
        /\ result o = inr tt).
Proof.
  intros o. subst o. split.
  - intros c ps.
    destruct (arrays h !! tokens) as [l|] eqn:Hl.
    + rewrite (fetchAndStorePrices_run _ _ _ _ _ _ Hl). cbn [events].
      rewrite own_Ev, store_calls_cycle.
      destruct (fetchPrices _ _); [intros []|].
      destruct (JS.values _); [intros []|].
      intros [[= <- <-]|[]]. discriminate.
    + rewrite (fetchAndStorePrices_dangling _ _ _ _ _ Hl). intros [].
  - intros l prices Hl Hfetch Hempty.
    rewrite (fetchAndStorePrices_run _ _ _ _ _ _ Hl). cbn [events result].
    unfold cycle_calls. rewrite Hfetch. cbn zeta. rewrite Hempty.
    repeat split.
Qed.
End AliasClaims.

Lemma C1_witness :
  wethAddresses 1 = Some WETH_MAINNET
  /\ arrays sample_heap !! 0 = Some sample_tokens
  /\ JS.get [("0xAA", mkPrice "0xAA" 7 1 "sample"); ("0xbb", mkPrice "0xbb" 7 1 "sample");
             (WETH_MAINNET, mkPrice WETH_MAINNET 7 1 "sample")] WETH_MAINNET
     = Some (mkPrice WETH_MAINNET 7 1 "sample")
  /\ exists m z,
       store_calls (own (events (fetchAndStorePrices fetch_all store_ok 1 0 sample_heap)))
       = [(1%Z, JS.values m)]
       /\ JS.get m ZERO_ADDRESS = Some z
       /\ In z (JS.values m)
       /\ price z = 7%Z
       /\ price_address z = ZERO_ADDRESS.
Proof.
  split; [reflexivity|]. split; [reflexivity|]. split; [reflexivity|].
  destruct (C1_native_alias fetch_all store_ok 1 WETH_MAINNET 0 sample_heap
              sample_tokens _ eq_refl eq_refl eq_refl) as (_ & Hpresent & _).
  exact (Hpresent (mkPrice WETH_MAINNET 7 1 "sample") eq_refl).
Defined.

(** C4, as stated: the aliasing would leave a zero-address record returned
    by the fetcher untouched.  On chain 1, with a fetcher that returns a
    zero-address record priced 5 and a wrapped-native record priced 7, the
    array passed to storage holds the alias priced 7 in place of the
    fetcher's record. *)
Lemma C4_counterexample :
  JS.get [(ZERO_ADDRESS, native_record); (WETH_MAINNET, weth_record)] ZERO_ADDRESS
    = Some native_record
  /\ store_calls
       (own (events (fetchAndStorePrices fetch_with_native store_ok 1 0 sample_heap)))
     = [(1%Z, [with_address weth_record ZERO_ADDRESS; weth_record])]
  /\ ~ In native_record [with_address weth_record ZERO_ADDRESS; weth_record].
Proof.
  split; [reflexivity|]. split; [reflexivity|].
  intros [H|[H|[]]]; discriminate H.
Qed.

Lemma C4_witness :
  wethAddresses 1 = Some WETH_MAINNET
  /\ arrays sample_heap !! 0 = Some sample_tokens
  /\ fetch_with_native 1 (tokensWithNative 1 sample_tokens)
     = inr ([] ++ (ZERO_ADDRESS, native_record) :: [(WETH_MAINNET, weth_record)])
  /\ JS.get [(ZERO_ADDRESS, native_record); (WETH_MAINNET, weth_record)] WETH_MAINNET
     = Some weth_record
  /\ store_calls
       (own (events (fetchAndStorePrices fetch_with_native store_ok 1 0 sample_heap)))
     = [(1%Z, JS.values [] ++ with_address weth_record ZERO_ADDRESS
                             :: JS.values [(WETH_MAINNET, weth_record)])].
Proof.
  split; [reflexivity|]. split; [reflexivity|]. split; [reflexivity|].
  split; [reflexivity|].
  destruct (C4_alias_replaces_zero_record fetch_with_native store_ok 1 WETH_MAINNET 0
              sample_heap sample_tokens _ eq_refl eq_refl eq_refl) as [Hpresent _].
  destruct (Hpresent weth_record eq_refl) as (_ & _ & _ & Hplace & _).
  exact (proj2 (Hplace [] native_record [(WETH_MAINNET, weth_record)] eq_refl eq_refl)).
Defined.

(** ** Composing runs *)

Lemma runs_to_ret {A} (a : A) : runs_to (mret a) [] a.
Proof. intros h. exists h. reflexivity. Qed.

Lemma runs_to_bind {A B} (m : M A) (f : A -> M B) l1 l2 a b :
  runs_to m l1 a -> runs_to (f a) l2 b -> runs_to (m ≫= f) (l1 ++ l2) b.
Proof.
  intros Hm Hf h. destruct (Hm h) as [h1 E1]. destruct (Hf h1) as [h2 E2].
  exists h2. unfold mbind, M_bind, bind. rewrite E1. cbn [result heap events].
  rewrite E2. reflexivity.
Qed.

Lemma runs_to_call e : runs_to (call e) [Ev e] tt.
Proof. intros h. exists h. reflexivity. Qed.

Lemma runs_to_tracked e f : runs_to (tracked e f) [Ev e] tt.
Proof. intros h. eexists. reflexivity. Qed.

Lemma settle_runs (tasks : list (M unit)) (logs : list (list item)) :
  Forall2 (fun t l => runs_to t l tt) tasks logs ->
  forall h, exists h', settle tasks h = (logs, h', None).
Proof.
  induction 1 as [|t l tasks logs Ht _ IH]; intros h.
  - exists h. reflexivity.
  - destruct (Ht h) as [h1 E1]. destruct (IH h1) as [h2 E2].
    exists h2. cbn [settle]. rewrite E1. cbn [heap events result].
    rewrite E2. reflexivity.
Qed.

Lemma runs_to_promise_all (tasks : list (M unit)) (logs : list (list item)) :
  Forall2 (fun t l => runs_to t l tt) tasks logs ->
  runs_to (promise_all tasks) [All logs] tt.
Proof.
  intros H h. destruct (settle_runs _ _ H h) as [h' E].
  exists h'. unfold promise_all. rewrite E. reflexivity.
Qed.

Lemma runs_to_map {X} (f : X -> M unit) (g : X -> list item) (xs : list X) :
  (forall x, runs_to (f x) (g x) tt) ->
  Forall2 (fun t l => runs_to t l tt) (map f xs) (map g xs).
Proof. intros H. induction xs; simpl; constructor; auto. Qed.

Section GovernorFacts.
Variable fetchPrices : Z -> list ERC20Token -> exn + list (string * Price).
Variable storePrices : Z -> list Price -> option exn.

Lemma runs_to_batch chainId batch :
  runs_to (fetchAndStoreBatch fetchPrices storePrices chainId batch)
          (batch_task fetchPrices storePrices chainId batch) tt.
Proof. intros h. eexists. apply fetchAndStoreBatch_run. Qed.

Lemma runs_to_governor chainId key N ng : forall groups index,
  runs_to (forOfBatchGroups fetchPrices storePrices chainId key N ng index groups)
          (governor_log fetchPrices storePrices chainId key N ng index groups) tt.
Proof.
  induction groups as [|g rest IH]; intros index.
  - apply runs_to_ret.
  - cbn [forOfBatchGroups governor_log].
    change (?a :: ?b :: ?c ++ ?d) with ([a] ++ [b] ++ c ++ d).
    apply runs_to_bind with (a := tt).
    { apply runs_to_promise_all, runs_to_map. intros b. apply runs_to_batch. }
    apply runs_to_bind with (a := tt); [apply runs_to_tracked|].
    apply runs_to_bind with (a := tt); [|apply IH].
    destruct (index <? ng - 1); [apply runs_to_call | apply runs_to_ret].
Qed.
End GovernorFacts.

Lemma runs_to_outcome {A} (m : M A) log a h :
  runs_to m log a -> events (m h) = log /\ result (m h) = inr a.
Proof. intros H. destruct (H h) as [h' ->]. split; reflexivity. Qed.


Lemma flatten_app l1 l2 : flatten (l1 ++ l2) = flatten l1 ++ flatten l2.
Proof. apply flat_map_app. Qed.

Lemma awaited_app l1 l2 : awaited (l1 ++ l2) = awaited l1 ++ awaited l2.
Proof. apply flat_map_app. Qed.

Section ChainFacts.
Variable fetchPrices : Z -> list ERC20Token -> exn + list (string * Price).
Variable storePrices : Z -> list Price -> option exn.
Abbreviation governor := (governor_log fetchPrices storePrices).

Lemma runs_to_chain_empty chainId :
  runs_to (chainPromise fetchPrices storePrices (chainId, []))
          [Ev (ProgressIncrement processingKey)] tt.
Proof. apply runs_to_tracked. Qed.

Lemma runs_to_chain chainId tokens :
  tokens <> [] ->
  let groups := Lodash.chunk (Lodash.chunk tokens batchSize) 3 in
  runs_to (chainPromise fetchPrices storePrices (chainId, tokens))
          (Ev (ProgressStart (chainKey chainId) "Fetching Prices" (length tokens)
                             (Some chainId))
           :: governor chainId (chainKey chainId) (length tokens) (length groups)
                       0 groups
           ++ [Ev (ProgressComplete (chainKey chainId));
               Ev (ProgressIncrement processingKey)])
          tt.
Proof.
  intros Hne groups. unfold chainPromise.
  destruct tokens as [|t ts]; [congruence|]. cbn [length Nat.eqb].
  change (?a :: ?b ++ [?c; ?d]) with ([a] ++ b ++ [c] ++ [d]).
  apply runs_to_bind with (a := tt); [apply runs_to_tracked|].
  apply runs_to_bind with (a := tt); [apply runs_to_governor|].
  apply runs_to_bind with (a := tt); apply runs_to_tracked.
Qed.

Lemma runs_to_chain_log entry :
  runs_to (chainPromise fetchPrices storePrices entry)
          (chain_log fetchPrices storePrices entry) tt.
Proof.
  destruct entry as [chainId [|t ts]].
  - apply runs_to_chain_empty.
  - apply (runs_to_chain chainId (t :: ts)). discriminate.
Qed.


Lemma awaited_governor chainId key N ng : forall groups index,
  awaited (governor chainId key N ng index groups) =
  map (map (batch_task fetchPrices storePrices chainId)) groups.
Proof.
  induction groups as [|g rest IH]; intros index; [reflexivity|].
  cbn [governor_log map].
  change (awaited (?a :: ?b :: ?c)) with (awaited [a] ++ awaited c).
  rewrite awaited_app, IH. cbn [awaited flat_map app]. f_equal.
  destruct (index <? ng - 1); reflexivity.
Qed.

Lemma flatten_batches chainId (g : list (list ERC20Token)) :
  flat_map (flat_map flatten_item) (map (batch_task fetchPrices storePrices chainId) g)
  = flat_map (fun b => cycle_calls fetchPrices storePrices chainId
                         (tokensWithNative chainId b)) g.
Proof.
  induction g as [|b g IH]; [reflexivity|].
  cbn [map flat_map]. rewrite IH. f_equal. apply flatten_Ev.
Qed.

(** Every call of the loop, batch after batch and group after group. *)
Lemma flatten_governor chainId key N ng : forall groups index,
  flatten (governor chainId key N ng index groups) =
  match groups with
  | [] => []
  | g :: rest =>
      flat_map (fun b => cycle_calls fetchPrices storePrices chainId
                           (tokensWithNative chainId b)) g
      ++ ProgressUpdate key (processed_after index g N)
      :: (if index <? ng - 1 then [SetTimeout 200] else [])
      ++ flatten (governor chainId key N ng (S index) rest)
  end.
Proof.
  intros [|g rest] index; [reflexivity|].
  cbn [governor_log].
  change (flatten (?a :: ?b :: ?c)) with (flatten_item a ++ flatten_item b ++ flatten c).
  rewrite flatten_app. cbn [flatten_item app]. rewrite flatten_batches.
  do 2 f_equal. destruct (index <? ng - 1); reflexivity.
Qed.

(** An observation that sees nothing in a cycle, in a progress update or
    in a pacing delay sees nothing in the loop. *)
Lemma governor_silent {B} (f : event -> list B) chainId key N ng :
  (forall sent, flat_map f (cycle_calls fetchPrices storePrices chainId sent) = []) ->
  (forall n, f (ProgressUpdate key n) = []) ->
  f (SetTimeout 200) = [] ->
  forall groups index,
    flat_map f (flatten (governor chainId key N ng index groups)) = [].
Proof.
  intros Hc Hu Ht. induction groups as [|g rest IH]; intros index; [reflexivity|].
  rewrite flatten_governor, flat_map_app. cbn [flat_map].
  rewrite flat_map_app, IH, Hu.
  replace (flat_map f (if index <? ng - 1 then [SetTimeout 200] else []))
    with (@nil B) by (destruct (index <? ng - 1); cbn; rewrite ?Ht; reflexivity).
  cbn [app]. rewrite app_nil_r.
  induction g as [|b g IHg]; [reflexivity|].
  cbn [flat_map]. rewrite flat_map_app, Hc, IHg. reflexivity.
Qed.

Lemma fetch_calls_governor chainId key N ng : forall groups index,
  fetch_calls (flatten (governor chainId key N ng index groups)) =
  map (fun b => (chainId, tokensWithNative chainId b)) (concat groups).
Proof.
  induction groups as [|g rest IH]; intros index; [reflexivity|].
  rewrite flatten_governor. unfold fetch_calls. rewrite flat_map_app.
  cbn [flat_map]. rewrite flat_map_app.
  fold (fetch_calls (flatten (governor chainId key N ng (S index) rest))).
  rewrite IH.
  replace (flat_map _ (if index <? ng - 1 then [SetTimeout 200] else []))
    with (@nil (Z * list ERC20Token)) by (destruct (index <? ng - 1); reflexivity).
  cbn [app concat]. rewrite map_app. f_equal.
  induction g as [|b g IHg]; [reflexivity|].
  cbn [flat_map map]. rewrite flat_map_app, IHg.
  fold (fetch_calls (cycle_calls fetchPrices storePrices chainId
                       (tokensWithNative chainId b))).
  rewrite fetch_calls_cycle. reflexivity.
Qed.

End ChainFacts.

(** ** Progress reports *)

Lemma group_lookup (tokens : list ERC20Token) i g :
  Lodash.chunk (Lodash.chunk tokens batchSize) 3 !! i = Some g ->
  i * 3 < Lodash.ceil_div (length tokens) 500
  /\ length g = Nat.min 3 (Lodash.ceil_div (length tokens) 500 - i * 3)
  /\ length (concat g) = Nat.min 1500 (length tokens - i * 1500).
Proof.
  intros Hg.
  assert (Hs : 1 <= batchSize) by (unfold batchSize; lia).
  destruct (length_chunk_lookup (Lodash.chunk tokens batchSize) g 3 i ltac:(lia) Hg)
    as [Hlt Hlen].
  rewrite length_chunk in Hlt, Hlen by assumption.
  split; [exact Hlt|]. split; [exact Hlen|].
  rewrite lookup_chunk in Hg by lia.
  destruct (i * 3 <? _); [|discriminate]. injection Hg as <-.
  rewrite (drop_chunk _ _ _ Hs), (concat_take_chunk _ _ _ Hs).
  rewrite length_take, length_drop. unfold batchSize. lia.
Qed.



(** ** Failures inside a batch *)




(** ** One orchestration pass *)

Section PassFacts.
Variable fetchPrices : Z -> list ERC20Token -> exn + list (string * Price).
Variable storePrices : Z -> list Price -> option exn.
Variable discoverAllTokens : bool -> exn + list (Z * list ERC20Token).
Abbreviation pass := (fetchDiscoveredTokens fetchPrices storePrices discoverAllTokens).
Abbreviation chain := (chain_log fetchPrices storePrices).

Lemma pass_discovery_fails forceRefresh e h :
  discoverAllTokens forceRefresh = inl e ->
  pass forceRefresh h =
  mkOutcome [Ev (DiscoverAllTokens forceRefresh);
             Ev (LoggerError ErrorFetchingDiscoveredTokens e)] h (inr tt).
Proof.
  intros He. unfold fetchDiscoveredTokens, try_catch,
    tokenDiscoveryService_discoverAllTokens.
  run_monad. rewrite He. reflexivity.
Qed.

Lemma pass_discovery_ok forceRefresh tokensByChain h :
  discoverAllTokens forceRefresh = inr tokensByChain ->
  exists totalTokens errors h',
    pass forceRefresh h =
    mkOutcome [Ev (DiscoverAllTokens forceRefresh);
               Ev (LoggerDebug (DiscoveryComplete (length tokensByChain) totalTokens));
               Ev (ProgressStart processingKey "Processing Chains"
                                 (length tokensByChain) None);
               All (map chain tokensByChain);
               Ev (ProgressComplete processingKey);
               Ev ProgressGetStats;
               Ev (LoggerInfo (PriceFetchComplete totalTokens errors))]
              h' (inr tt).
Proof.
  intros Hd.
  pose proof (runs_to_promise_all _ _
                (runs_to_map (chainPromise fetchPrices storePrices) chain
                             tokensByChain
                             (runs_to_chain_log fetchPrices storePrices))) as Hall.
  unfold fetchDiscoveredTokens, try_catch, tokenDiscoveryService_discoverAllTokens.
  unfold logger_debug, logger_info, progressTracker_start, progressTracker_complete,
    progressTracker_getStats, tracked.
  run_monad. rewrite Hd. cbn [result events heap arrays tracker].
  match goal with |- context [promise_all ?ts ?h0] => destruct (Hall h0) as [h1 ->] end.
  cbn [result events heap arrays tracker app].
  do 3 eexists. reflexivity.
Qed.

Lemma pass_fulfils forceRefresh h : result (pass forceRefresh h) = inr tt.
Proof.
  destruct (discoverAllTokens forceRefresh) as [e|tokensByChain] eqn:Hd.
  - rewrite (pass_discovery_fails _ _ _ Hd). reflexivity.
  - destruct (pass_discovery_ok _ _ h Hd) as (? & ? & ? & ->). reflexivity.
Qed.

Lemma discover_calls_cycle chainId sent :
  discover_calls (cycle_calls fetchPrices storePrices chainId sent) = [].
Proof.
  unfold cycle_calls. destruct (fetchPrices chainId sent); [reflexivity|].
  cbn zeta. destruct (0 <? _); [|reflexivity].
  destruct (storePrices _ _); reflexivity.
Qed.

Lemma progress_increments_cycle chainId sent :
  progress_increments (cycle_calls fetchPrices storePrices chainId sent) = [].
Proof.
  unfold cycle_calls. destruct (fetchPrices chainId sent); [reflexivity|].
  cbn zeta. destruct (0 <? _); [|reflexivity].
  destruct (storePrices _ _); reflexivity.
Qed.

Lemma progress_starts_cycle chainId sent :
  progress_starts (cycle_calls fetchPrices storePrices chainId sent) = [].
Proof.
  unfold cycle_calls. destruct (fetchPrices chainId sent); [reflexivity|].
  cbn zeta. destruct (0 <? _); [|reflexivity].
  destruct (storePrices _ _); reflexivity.
Qed.

Lemma progress_completes_cycle chainId sent :
  progress_completes (cycle_calls fetchPrices storePrices chainId sent) = [].
Proof.
  unfold cycle_calls. destruct (fetchPrices chainId sent); [reflexivity|].
  cbn zeta. destruct (0 <? _); [|reflexivity].
  destruct (storePrices _ _); reflexivity.
Qed.

Lemma discover_calls_chain entry : discover_calls (flatten (chain entry)) = [].
Proof.
  destruct entry as [chainId [|t ts]]; [reflexivity|].
  unfold chain_log.
  change (flatten (?a :: ?b)) with (flatten [a] ++ flatten b).
  rewrite flatten_app. unfold discover_calls. rewrite !flat_map_app.
  rewrite governor_silent; try reflexivity.
  intros sent. apply discover_calls_cycle.
Qed.

Lemma discover_calls_chains (entries : list (Z * list ERC20Token)) :
  discover_calls (flat_map (flat_map flatten_item) (map chain entries)) = [].
Proof.
  induction entries as [|entry entries IH]; [reflexivity|].
  cbn [map flat_map]. unfold discover_calls in *. rewrite flat_map_app, IH.
  fold (flatten (chain entry)). fold (discover_calls (flatten (chain entry))).
  rewrite discover_calls_chain. reflexivity.
Qed.

Lemma discover_calls_pass forceRefresh h :
  discover_calls (flatten (events (pass forceRefresh h))) = [forceRefresh].
Proof.
  destruct (discoverAllTokens forceRefresh) as [e|tokensByChain] eqn:Hd.
  - rewrite (pass_discovery_fails _ _ _ Hd). reflexivity.
  - destruct (pass_discovery_ok _ _ h Hd) as (? & ? & ? & ->).
    cbn [events].
    change (flatten (?a :: ?b :: ?c :: ?d :: ?e))
      with (flatten [a; b; c] ++ flatten_item d ++ flatten e).
    unfold discover_calls. rewrite !flat_map_app. cbn [flatten_item].
    fold (discover_calls (flat_map (flat_map flatten_item) (map chain tokensByChain))).
    rewrite discover_calls_chains. reflexivity.
Qed.
End PassFacts.

(** C8. In a pass whose discovery succeeds, the networks are awaited
    together, one task per network in the order of the entries.  Each task
    increments "processing-all" exactly once.  The task of a network without
    tokens is that increment alone (no entry is started, nothing is fetched
    or stored).  The task of a network with tokens starts the entry keyed by
    its chain id with the token count as total, runs the loop over its batch
    groups (which fetches every batch, and starts, completes and increments
    nothing), completes the entry and then increments "processing-all". *)
Theorem C8_pass_per_network
    (fetchPrices : Z -> list ERC20Token -> exn + list (string * Price))
    (storePrices : Z -> list Price -> option exn)
    (discoverAllTokens : bool -> exn + list (Z * list ERC20Token))
    (forceRefresh : bool) (tokensByChain : list (Z * list ERC20Token)) (h : Heap) :
  discoverAllTokens forceRefresh = inr tokensByChain ->
  exists tasks,
    awaited (events (fetchDiscoveredTokens fetchPrices storePrices discoverAllTokens
                       forceRefresh h)) = [tasks]
    /\ length tasks = length tokensByChain
    /\ forall i chainId tokens,
         tokensByChain !! i = Some (chainId, tokens) ->
         exists log,
           tasks !! i = Some log
           /\ progress_increments (flatten log) = ["processing-all"]
           /\ (tokens = [] -> log = [Ev (ProgressIncrement "processing-all")])
           /\ (tokens <> [] ->
               exists governor,
                 log = Ev (ProgressStart (chainKey chainId) "Fetching Prices"
                                         (length tokens) (Some chainId))
                       :: governor
                       ++ [Ev (ProgressComplete (chainKey chainId));
                           Ev (ProgressIncrement "processing-all")]
                 /\ fetch_calls (flatten governor)
                    = map (fun b => (chainId, tokensWithNative chainId b))
                          (Lodash.chunk tokens batchSize)
                 /\ length (awaited governor)
                    = length (Lodash.chunk (Lodash.chunk tokens batchSize) 3)
                 /\ progress_starts (flatten governor) = []
                 /\ progress_completes (flatten governor) = []
                 /\ progress_increments (flatten governor) = []).
Proof.
  intros Hd.
  destruct (pass_discovery_ok fetchPrices storePrices discoverAllTokens
              forceRefresh tokensByChain h Hd) as (total & errors & h' & ->).
  exists (map (chain_log fetchPrices storePrices) tokensByChain).
  split; [reflexivity|]. split; [apply length_map|].
  intros i chainId tokens Hi.
  exists (chain_log fetchPrices storePrices (chainId, tokens)).
  split.
  { change (map ?f ?l) with (f <$> l). rewrite list_lookup_fmap, Hi. reflexivity. }
  assert (Hs : 1 <= batchSize) by (unfold batchSize; lia).
  assert (Hinc : forall groups,
            progress_increments
              (flatten (governor_log fetchPrices storePrices chainId (chainKey chainId)
                          (length tokens) (length groups) 0 groups)) = []).
  { intros groups. apply governor_silent; try reflexivity.
    intros sent. apply progress_increments_cycle. }
  destruct tokens as [|t ts] eqn:Et.
  - split; [reflexivity|]. split; [reflexivity|]. intros Hne. congruence.
  - rewrite <- Et in *. clear Hi.
    assert (Hlog : chain_log fetchPrices storePrices (chainId, tokens) =
              Ev (ProgressStart (chainKey chainId) "Fetching Prices" (length tokens)
                                (Some chainId))
              :: governor_log fetchPrices storePrices chainId (chainKey chainId)
                   (length tokens)
                   (length (Lodash.chunk (Lodash.chunk tokens batchSize) 3)) 0
                   (Lodash.chunk (Lodash.chunk tokens batchSize) 3)
              ++ [Ev (ProgressComplete (chainKey chainId));
                  Ev (ProgressIncrement processingKey)]).
    { rewrite Et. reflexivity. }
    rewrite Hlog. split.
    { change (flatten (?a :: ?b)) with (flatten [a] ++ flatten b).
      rewrite flatten_app. unfold progress_increments in *.
      rewrite !flat_map_app, Hinc. reflexivity. }
    split; [intros E; rewrite E in Et; discriminate|].
    intros _. eexists. split; [reflexivity|].
    split.
    { rewrite fetch_calls_governor, concat_chunk by lia. reflexivity. }
    split; [rewrite awaited_governor; apply length_map|].
    split; [|split].
    + apply governor_silent; try reflexivity.
      intros sent. apply progress_starts_cycle.
    + apply governor_silent; try reflexivity.
      intros sent. apply progress_completes_cycle.
    + apply Hinc.
Qed.

Lemma C8_witness :
  discover_sample true = inr [(1%Z, tokens_of_length 3); (10%Z, [])]
  /\ exists tasks,
       awaited (events (fetchDiscoveredTokens fetch_none store_ok discover_sample true
                          sample_heap)) = [tasks]
       /\ length tasks = 2.
Proof.
  split; [reflexivity|].
  destruct (C8_pass_per_network fetch_none store_ok discover_sample true _ sample_heap
              eq_refl) as (tasks & Htasks & Hlen & _).
  exists tasks. split; [exact Htasks | exact Hlen].
Defined.

(** ** The periodic scheduler *)

Section SchedulerFacts.
Variable fetchPrices : Z -> list ERC20Token -> exn + list (string * Price).
Variable storePrices : Z -> list Price -> option exn.
Variable discoverAllTokens : bool -> exn + list (Z * list ERC20Token).
Abbreviation pass_of := (fetchDiscoveredTokens fetchPrices storePrices discoverAllTokens).

Lemma detach_pass forceRefresh handler h :
  detach (pass_of forceRefresh) handler h =
  mkOutcome [Detached (events (pass_of forceRefresh h))]
            (heap (pass_of forceRefresh h)) (inr tt).
Proof.
  unfold detach, try_catch.
  pose proof (pass_fulfils fetchPrices storePrices discoverAllTokens forceRefresh h)
    as Hok.
  destruct (pass_of forceRefresh h) as [l1 h1 [e|[]]]; [discriminate|reflexivity].
Qed.

Lemma timer_passes intervalMs : forall ticks h,
  result (timer fetchPrices storePrices discoverAllTokens intervalMs ticks h) = inr tt
  /\ own (events (timer fetchPrices storePrices discoverAllTokens intervalMs ticks h))
     = []
  /\ map (fun task => discover_calls (flatten task))
         (detached (events (timer fetchPrices storePrices discoverAllTokens
                              intervalMs ticks h)))
     = map (fun now => [shouldRediscover now intervalMs]) ticks.
Proof.
  induction ticks as [|now rest IH]; intros h.
  - repeat split.
  - cbn [timer]. unfold mbind, M_bind, bind, onInterval.
    rewrite detach_pass.
    destruct (IH (heap (pass_of (shouldRediscover now intervalMs) h)))
      as (Hres & Hown & Hdet).
    destruct (timer _ _ _ _ rest _) as [l2 h2 r2].
    cbn [result events] in *. subst r2.
    split; [reflexivity|]. split; [exact Hown|].
    cbn [app detached flat_map map]. rewrite discover_calls_pass.
    f_equal. exact Hdet.
Qed.
End SchedulerFacts.

(** C7. [startPeriodicFetch] first logs, then starts one pass whose
    discovery is called with [forceRefresh = true], then arms the timer;
    after that every tick starts one pass, whose discovery is called once,
    with [forceRefresh = true] exactly when the clock reading of the tick,
    reduced by [% 3600000], is below [intervalMs] (for a clock reading that
    is not negative, [%] is the mathematical mod). *)
Theorem C7_scheduler_rediscovery
    (fetchPrices : Z -> list ERC20Token -> exn + list (string * Price))
    (storePrices : Z -> list Price -> option exn)
    (discoverAllTokens : bool -> exn + list (Z * list ERC20Token))
    (intervalMs : Z) (ticks : list Z) (h : Heap) :
  let o := startPeriodicFetch fetchPrices storePrices discoverAllTokens
             intervalMs ticks h in
  (exists first rest,
     events o = Ev (LoggerInfo (StartingPriceService intervalMs))
                :: Detached first :: Ev (SetInterval intervalMs) :: rest
     /\ discover_calls (flatten first) = [true]
     /\ own rest = []
     /\ map (fun task => discover_calls (flatten task)) (detached rest)
        = map (fun now => [shouldRediscover now intervalMs]) ticks)
  /\ (forall now,
        shouldRediscover now intervalMs = true
        <-> (Z.rem now 3600000 < intervalMs)%Z)
  /\ (forall now, (0 <= now)%Z ->
        (shouldRediscover now intervalMs = true
         <-> (now mod 3600000 < intervalMs)%Z)).
Proof.
  intros o. split; [|split].
  - subst o. unfold startPeriodicFetch, mbind, M_bind, bind, logger_info, call.
    rewrite detach_pass.
    destruct (timer_passes fetchPrices storePrices discoverAllTokens intervalMs ticks
                (heap (fetchDiscoveredTokens fetchPrices storePrices
                         discoverAllTokens true h)))
      as (Hres & Hown & Hdet).
    destruct (timer _ _ _ _ ticks _) as [l2 h2 r2].
    cbn [result events app] in *.
    exists (events (fetchDiscoveredTokens fetchPrices storePrices
                      discoverAllTokens true h)), l2.
    split; [reflexivity|]. split; [apply discover_calls_pass|].
    split; assumption.
  - intros now. unfold shouldRediscover. apply Z.ltb_lt.
  - intros now Hnow. unfold shouldRediscover.
    rewrite Z.rem_mod_nonneg by lia. apply Z.ltb_lt.
Qed.

Lemma C7_witness :
  shouldRediscover 7230000 60000 = true <-> (Z.rem 7230000 3600000 < 60000)%Z.
Proof.
  exact (proj1 (proj2 (C7_scheduler_rediscovery fetch_none store_ok discover_sample
                         60000 [7230000; 7290000]%Z sample_heap)) 7230000%Z).
Defined.


Lemma C6_witness :
  concat (Lodash.chunk (tokens_of_length 1200) batchSize) = tokens_of_length 1200.
Proof.
  exact (proj1 (proj2 (C6_batches_and_groups (tokens_of_length 1200)))).
Defined.

Lemma C9_witness :
  arrays sample_heap !! 0 = Some sample_tokens
  /\ fetch_none 10 (tokensWithNative 10 sample_tokens) = inr []
  /\ store_calls (own (events (fetchAndStorePrices fetch_none store_ok 10 0 sample_heap)))
     = [].
Proof.
  split; [reflexivity|]. split; [reflexivity|].
  destruct (C9_store_only_when_nonempty fetch_none store_ok 10 0 sample_heap)
    as [_ Hempty].
  destruct (Hempty sample_tokens [] eq_refl eq_refl eq_refl) as (_ & Hstore & _).
  exact Hstore.
Defined.

(** ** Scenarios of the specification, run on the embedding *)

(** 1200 tokens: 3 batches in 1 group; progress is reported once, with 1200. *)
Example scenario_1200_tokens :
  map (@length _) (Lodash.chunk (tokens_of_length 1200) batchSize) = [500; 500; 200]
  /\ length (Lodash.chunk (Lodash.chunk (tokens_of_length 1200) batchSize) 3) = 1
  /\ progress_updates
       (own (events (chainPromise fetch_none store_ok (1%Z, tokens_of_length 1200)
                       sample_heap)))
     = [("chain-1", 1200)].
Proof. vm_compute. repeat split. Qed.

(** 3201 tokens: 7 batches in 3 groups; a pacing delay after the first two
    groups only; the reports are 1500, 3000, 3201. *)
Example scenario_3201_tokens :
  let log := events (chainPromise fetch_none store_ok (10%Z, tokens_of_length 3201)
                       sample_heap) in
  progress_updates (own log) = [("chain-10", 1500); ("chain-10", 3000); ("chain-10", 3201)]
  /\ timeouts (own log) = [200; 200]%Z
  /\ map (@length _) (awaited log) = [3; 3; 1].
Proof. vm_compute. repeat split. Qed.

(** Chain 1, a token list without the wrapped-native token: the fetcher is
    asked for it, and its price is stored a second time under the zero
    address. *)
Example scenario_mainnet_alias :
  events (fetchAndStorePrices fetch_all store_ok 1 0 sample_heap)
  = [Ev (FetchPrices 1 (sample_tokens ++ [wrappedEther WETH_MAINNET 1]));
     Ev (StorePrices 1 [mkPrice "0xAA" 7 1 "sample"; mkPrice "0xbb" 7 1 "sample";
                        mkPrice WETH_MAINNET 7 1 "sample";
                        mkPrice ZERO_ADDRESS 7 1 "sample"])].
Proof. reflexivity. Qed.

(** A batch whose fetch rejects among batches whose fetch succeeds: all three
    batches of the group are fetched, the failure is logged in its own
    task. *)
Example scenario_failing_batch :
  map (map (fun task => (length (fetch_calls (flatten task)),
                         length (logged_errors (flatten task)))))
      (awaited (events (chainPromise fetch_fails_short store_ok
                          (5%Z, tokens_of_length 1200) sample_heap)))
  = [[(1, 0); (1, 0); (1, 1)]].
Proof. vm_compute. reflexivity. Qed.


(** * Further properties of the code *)

(** ** The copy sent to the fetcher *)

Lemma wethAddresses_lower chainId W :
  wethAddresses chainId = Some W -> JS.toLowerCase W = W /\ W <> ZERO_ADDRESS.
Proof.
  unfold wethAddresses.
  destruct (chainId =? 1)%Z; [intros [= <-]; split; [reflexivity | discriminate]|].
  destruct (chainId =? 10)%Z; [intros [= <-]; split; [reflexivity | discriminate]|].
  destruct (chainId =? 42161)%Z; [intros [= <-]; split; [reflexivity | discriminate]|].
  destruct (chainId =? 8453)%Z; [intros [= <-]; split; [reflexivity | discriminate]|].
  discriminate.
Qed.

Lemma tokensWithNative_idem chainId l :
  tokensWithNative chainId (tokensWithNative chainId l) = tokensWithNative chainId l.
Proof.
  unfold tokensWithNative.
  destruct (registered chainId); [|reflexivity].
  destruct (wethAddresses chainId) as [W|] eqn:HW; [|reflexivity].
  destruct (existsb _ l) eqn:E; cbn [negb].
  - rewrite E. reflexivity.
  - rewrite existsb_app, E. cbn [existsb wrappedEther address orb].
    destruct (wethAddresses_lower _ _ HW) as [-> _].
    rewrite String.eqb_refl. reflexivity.
Qed.

Lemma tokensWithNative_length chainId l :
  length l <= length (tokensWithNative chainId l) <= length l + 1.
Proof.
  unfold tokensWithNative.
  destruct (registered chainId); [|lia].
  destruct (wethAddresses chainId); [|lia].
  destruct (negb _); [rewrite length_app; simpl; lia | lia].
Qed.

Lemma tokensWithNative_has_native chainId W l :
  wethAddresses chainId = Some W ->
  exists t, In t (tokensWithNative chainId l) /\ JS.toLowerCase (address t) = W.
Proof.
  intros HW. unfold tokensWithNative.
  rewrite (wethAddresses_registered _ _ HW), HW.
  destruct (existsb _ l) eqn:E; cbn [negb].
  - apply existsb_exists in E as (t & Hin & Heq).
    exists t. split; [assumption | apply String.eqb_eq; assumption].
  - exists (wrappedEther W chainId). split.
    + apply in_or_app. right. left. reflexivity.
    + apply (wethAddresses_lower _ _ HW).
Qed.

Lemma tokensWithNative_unregistered chainId l :
  registered chainId = false -> tokensWithNative chainId l = l.
Proof. intros H. unfold tokensWithNative. rewrite H. reflexivity. Qed.

(** X1. What one call of [fetchAndStorePrices] sent to the fetcher is sent
    unchanged by a call on an array holding that list: the pushed token has
    the registry's lower-case address, so the presence test finds it and no
    second wrapped-native token is pushed. *)
Theorem X1_wrapped_native_pushed_once
    (fetchPrices : Z -> list ERC20Token -> exn + list (string * Price))
    (storePrices : Z -> list Price -> option exn)
    (chainId : Z) (tokens tokens' : loc) (h h' : Heap) (l sent : list ERC20Token) :
  arrays h !! tokens = Some l ->
  fetch_calls (own (events (fetchAndStorePrices fetchPrices storePrices
                              chainId tokens h))) = [(chainId, sent)] ->
  arrays h' !! tokens' = Some sent ->
  fetch_calls (own (events (fetchAndStorePrices fetchPrices storePrices
                              chainId tokens' h'))) = [(chainId, sent)].
Proof.
  intros Hl Hsent Hl'.
  rewrite (fetchAndStorePrices_run _ _ _ _ _ _ Hl) in Hsent. cbn [events] in Hsent.
  rewrite own_Ev, fetch_calls_cycle in Hsent. injection Hsent as <-.
  rewrite (fetchAndStorePrices_run _ _ _ _ _ _ Hl'). cbn [events].
  rewrite own_Ev, fetch_calls_cycle, tokensWithNative_idem. reflexivity.
Qed.

Lemma X1_witness :
  arrays sample_heap !! 0 = Some sample_tokens
  /\ arrays (mkHeap [sample_tokens ++ [wrappedEther WETH_MAINNET 1]] ∅) !! 0
     = Some (sample_tokens ++ [wrappedEther WETH_MAINNET 1])
  /\ fetch_calls (own (events (fetchAndStorePrices fetch_all store_ok 1 0
                                 (mkHeap [sample_tokens ++ [wrappedEther WETH_MAINNET 1]] ∅))))
     = [(1%Z, sample_tokens ++ [wrappedEther WETH_MAINNET 1])].
Proof.
  split; [reflexivity|]. split; [reflexivity|].
  apply (X1_wrapped_native_pushed_once fetch_all store_ok 1 0 0 sample_heap
           (mkHeap [sample_tokens ++ [wrappedEther WETH_MAINNET 1]] ∅)
           sample_tokens (sample_tokens ++ [wrappedEther WETH_MAINNET 1]));
    reflexivity.
Defined.

(** ** The alias in the price map *)

Section MapMoreFacts.
Context {V : Type}.
Implicit Types (m : list (string * V)) (k : string) (v : V).

Lemma get_None_keys m k : JS.get m k = None -> k ∉ map fst m.
Proof.
  induction m as [|[k' v'] m IH]; simpl; intros H.
  - apply not_elem_of_nil.
  - destruct (String.eqb_spec k' k) as [->|Hne]; [discriminate|].
    apply not_elem_of_cons. split; [congruence | auto].
Qed.

Lemma keys_set m k v :
  map fst (JS.set m k v) =
    match JS.get m k with
    | Some _ => map fst m
    | None => map fst m ++ [k]
    end.
Proof.
  induction m as [|[k' v'] m IH]; simpl; [reflexivity|].
  destruct (String.eqb_spec k' k) as [->|Hne]; simpl; [reflexivity|].
  rewrite IH. destruct (JS.get m k); reflexivity.
Qed.

Lemma set_set m k v v' : JS.set (JS.set m k v) k v' = JS.set m k v'.
Proof.
  induction m as [|[k0 v0] m IH]; simpl.
  - rewrite String.eqb_refl. reflexivity.
  - destruct (String.eqb_spec k0 k) as [->|Hne]; simpl.
    + rewrite String.eqb_refl. reflexivity.
    + destruct (String.eqb_spec k0 k); [contradiction|]. rewrite IH. reflexivity.
Qed.

Lemma length_set m k v : length m <= length (JS.set m k v) <= length m + 1.
Proof.
  induction m as [|[k' v'] m IH]; simpl; [lia|].
  destruct (String.eqb k' k); simpl; lia.
Qed.
End MapMoreFacts.

(** X2. The aliasing keeps the price map a map: when the keys of the
    fetched map are pairwise distinct, so are the keys of the map after
    aliasing; the map gains at most one entry and loses none; every key other
    than the zero address keeps its record.  This holds on every network. *)
Theorem X2_alias_keeps_map_wellformed (chainId : Z) (prices : list (string * Price)) :
  NoDup (map fst prices) ->
  NoDup (map fst (aliasNative chainId prices))
  /\ length prices <= length (aliasNative chainId prices) <= length prices + 1
  /\ (forall k, k <> ZERO_ADDRESS ->
        JS.get (aliasNative chainId prices) k = JS.get prices k).
Proof.
  intros Hnd. unfold aliasNative.
  destruct (registered chainId); [|repeat split; auto; lia].
  destruct (match wethAddresses chainId with
            | Some wethAddress => JS.get prices wethAddress
            | None => None
            end) as [r|]; [|repeat split; auto; lia].
  split; [|split].
  - rewrite keys_set.
    destruct (JS.get prices ZERO_ADDRESS) eqn:Hz; [assumption|].
    apply NoDup_app. split; [assumption|]. split; [|apply NoDup_singleton].
    intros x Hx Hin. apply list_elem_of_singleton in Hin as ->.
    exact (get_None_keys _ _ Hz Hx).
  - apply length_set.
  - intros k Hk. apply get_set_ne. congruence.
Qed.

Lemma X2_witness :
  NoDup (map fst [(ZERO_ADDRESS, native_record); (WETH_MAINNET, weth_record)])
  /\ NoDup (map fst (aliasNative 1 [(ZERO_ADDRESS, native_record);
                                    (WETH_MAINNET, weth_record)])).
Proof.
  assert (H : NoDup (map fst [(ZERO_ADDRESS, native_record);
                              (WETH_MAINNET, weth_record)])).
  { apply NoDup_cons. split.
    - intros Hin. apply list_elem_of_singleton in Hin. discriminate Hin.
    - apply NoDup_singleton. }
  split; [exact H|].
  exact (proj1 (X2_alias_keeps_map_wellformed 1 _ H)).
Defined.

(** X3. Aliasing twice is aliasing once: the wrapped-native record is not
    touched by the alias (its key is not the zero address), and setting the
    zero-address record again writes the same record in the same place. *)
Theorem X3_alias_idempotent (chainId : Z) (prices : list (string * Price)) :
  aliasNative chainId (aliasNative chainId prices) = aliasNative chainId prices.
Proof.
  destruct (wethAddresses chainId) as [W|] eqn:HW.
  - rewrite !(aliasNative_registered _ _ _ HW).
    destruct (JS.get prices W) as [r|] eqn:Hr; [|rewrite Hr; reflexivity].
    destruct (wethAddresses_lower _ _ HW) as [_ Hne].
    rewrite get_set_ne by congruence. rewrite Hr. apply set_set.
  - unfold aliasNative. rewrite HW.
    destruct (registered chainId); reflexivity.
Qed.

(** X4. When the fetched map has a wrapped-native record and no
    zero-address record, the array passed to [storePrices] is the fetched
    records in the order of the map, followed by the alias. *)
Theorem X4_alias_is_stored_last
    (fetchPrices : Z -> list ERC20Token -> exn + list (string * Price))
    (storePrices : Z -> list Price -> option exn)
    (chainId : Z) (W : string) (tokens : loc) (h : Heap) (l : list ERC20Token)
    (prices : list (string * Price)) (r : Price) :
  wethAddresses chainId = Some W ->
  arrays h !! tokens = Some l ->
  fetchPrices chainId (tokensWithNative chainId l) = inr prices ->
  JS.get prices W = Some r ->
  JS.get prices ZERO_ADDRESS = None ->
  store_calls (own (events (fetchAndStorePrices fetchPrices storePrices
                              chainId tokens h)))
  = [(chainId, JS.values prices ++ [with_address r ZERO_ADDRESS])].
Proof.
  intros HW Hl Hfetch Hr Hz.
  rewrite (fetchAndStorePrices_run _ _ _ _ _ _ Hl). cbn [events].
  rewrite own_Ev, store_calls_cycle, Hfetch, (aliasNative_registered _ _ _ HW), Hr.
  rewrite (set_absent _ _ _ Hz). unfold JS.values. rewrite map_app. cbn [map snd].
  destruct (map snd prices ++ [with_address r ZERO_ADDRESS]) eqn:E; [|reflexivity].
  apply app_eq_nil in E as [_ E]. discriminate E.
Qed.

Lemma X4_witness :
  wethAddresses 1 = Some WETH_MAINNET
  /\ arrays sample_heap !! 0 = Some sample_tokens
  /\ store_calls (own (events (fetchAndStorePrices fetch_all store_ok 1 0 sample_heap)))
     = [(1%Z, JS.values [("0xAA", mkPrice "0xAA" 7 1 "sample");
                          ("0xbb", mkPrice "0xbb" 7 1 "sample");
                          (WETH_MAINNET, mkPrice WETH_MAINNET 7 1 "sample")]
              ++ [with_address (mkPrice WETH_MAINNET 7 1 "sample") ZERO_ADDRESS])].
Proof.
  split; [reflexivity|]. split; [reflexivity|].
  apply (X4_alias_is_stored_last fetch_all store_ok 1 WETH_MAINNET 0 sample_heap
           sample_tokens); reflexivity.
Defined.

(** ** The calls of a cycle *)

(** X5. A cycle on a valid array calls the fetcher exactly once and the
    store at most once (nothing is retried); after a rejected fetch the
    store is not called and the rejection is what is logged; an error is
    logged exactly when the fetch was rejected or the store threw. *)
Theorem X5_cycle_call_discipline
    (fetchPrices : Z -> list ERC20Token -> exn + list (string * Price))
    (storePrices : Z -> list Price -> option exn)
    (chainId : Z) (tokens : loc) (h : Heap) (l : list ERC20Token) :
  arrays h !! tokens = Some l ->
  let calls := own (events (fetchAndStorePrices fetchPrices storePrices
                              chainId tokens h)) in
  let sent := tokensWithNative chainId l in
  length (fetch_calls calls) = 1
  /\ length (store_calls calls) <= 1
  /\ (forall e, fetchPrices chainId sent = inl e ->
        store_calls calls = []
        /\ logged_errors calls = [(ErrorFetchingPrices chainId, e)])
  /\ (logged_errors calls = [] <->
      exists prices,
        fetchPrices chainId sent = inr prices
        /\ (JS.values (aliasNative chainId prices) = []
            \/ storePrices chainId (JS.values (aliasNative chainId prices)) = None)).
Proof.
  intros Hl calls sent. subst calls sent.
  rewrite (fetchAndStorePrices_run _ _ _ _ _ _ Hl). cbn [events].
  rewrite own_Ev, fetch_calls_cycle, store_calls_cycle.
  split; [reflexivity|]. split.
  { destruct (fetchPrices _ _); [simpl; lia|].
    destruct (JS.values _); simpl; lia. }
  unfold cycle_calls.
  destruct (fetchPrices chainId (tokensWithNative chainId l)) as [e|prices].
  - split.
    + intros e' [= <-]. split; reflexivity.
    + split; [discriminate | intros (prices & Hp & _); discriminate].
  - split; [intros e He; discriminate|]. cbn zeta.
    destruct (JS.values (aliasNative chainId prices)) as [|p ps] eqn:Ev.
    + split; [intros _; exists prices; rewrite Ev; auto | reflexivity].
    + cbn [length Nat.ltb Nat.leb].
      destruct (storePrices chainId (p :: ps)) as [e|] eqn:Es.
      * split; [discriminate|].
        intros (prices' & [= <-] & [Hnil|Hnone]).
        -- rewrite Ev in Hnil. discriminate.
        -- rewrite Ev, Es in Hnone. discriminate.
      * split; [|reflexivity].
        intros _. exists prices. rewrite Ev. auto.
Qed.

Lemma X5_witness :
  arrays sample_heap !! 0 = Some sample_tokens
  /\ fetch_fails 1 (tokensWithNative 1 sample_tokens) = inl "fetch failed"
  /\ store_calls (own (events (fetchAndStorePrices fetch_fails store_ok 1 0 sample_heap)))
     = [].
Proof.
  split; [reflexivity|]. split; [reflexivity|].
  destruct (X5_cycle_call_discipline fetch_fails store_ok 1 0 sample_heap
              sample_tokens eq_refl) as (_ & _ & Hrej & _).
  exact (proj1 (Hrej "fetch failed" eq_refl)).
Defined.

(** ** The task of one network *)

Section ChainMoreFacts.
Variable fetchPrices : Z -> list ERC20Token -> exn + list (string * Price).
Variable storePrices : Z -> list Price -> option exn.

Lemma events_chain entry h :
  events (chainPromise fetchPrices storePrices entry h)
  = chain_log fetchPrices storePrices entry.
Proof.
  exact (proj1 (runs_to_outcome _ _ _ h (runs_to_chain_log fetchPrices storePrices entry))).
Qed.

Lemma fetch_calls_chain_log chainId tokens :
  fetch_calls (flatten (chain_log fetchPrices storePrices (chainId, tokens)))
  = map (fun b => (chainId, tokensWithNative chainId b)) (Lodash.chunk tokens batchSize).
Proof.
  unfold chain_log. destruct tokens as [|t ts]; [reflexivity|].
  change (flatten (?a :: ?b)) with (flatten [a] ++ flatten b).
  rewrite flatten_app. unfold fetch_calls. rewrite !flat_map_app.
  match goal with
  | |- context [flat_map ?f (flatten (governor_log ?a ?b ?c ?k ?n ?ng 0 ?gs))] =>
      change (flat_map f (flatten (governor_log a b c k n ng 0 gs)))
        with (fetch_calls (flatten (governor_log a b c k n ng 0 gs)))
  end.
  rewrite fetch_calls_governor, concat_chunk by lia.
  cbn [flatten flat_map flatten_item app]. apply app_nil_r.
Qed.

Lemma awaited_chain_log chainId tokens :
  awaited (chain_log fetchPrices storePrices (chainId, tokens))
  = map (map (batch_task fetchPrices storePrices chainId))
        (Lodash.chunk (Lodash.chunk tokens batchSize) 3).
Proof.
  unfold chain_log. destruct tokens as [|t ts]; [reflexivity|].
  change (awaited (?a :: ?b)) with (awaited [a] ++ awaited b).
  rewrite awaited_app, awaited_governor. cbn [awaited flat_map app].
  apply app_nil_r.
Qed.

End ChainMoreFacts.

Lemma chain_log_nonempty
    (fetchPrices : Z -> list ERC20Token -> exn + list (string * Price))
    (storePrices : Z -> list Price -> option exn)
    (chainId : Z) (tokens : list ERC20Token) :
  tokens <> [] ->
  chain_log fetchPrices storePrices (chainId, tokens) =
  Ev (ProgressStart (chainKey chainId) "Fetching Prices" (length tokens) (Some chainId))
  :: governor_log fetchPrices storePrices chainId (chainKey chainId) (length tokens)
       (length (Lodash.chunk (Lodash.chunk tokens batchSize) 3)) 0
       (Lodash.chunk (Lodash.chunk tokens batchSize) 3)
  ++ [Ev (ProgressComplete (chainKey chainId)); Ev (ProgressIncrement processingKey)].
Proof. intros Hne. destruct tokens; [congruence | reflexivity]. Qed.

Lemma batch_bounds (tokens b : list ERC20Token) :
  In b (Lodash.chunk tokens batchSize) -> 1 <= length b <= 500.
Proof.
  intros Hin. apply list_elem_of_In, list_elem_of_lookup in Hin as [i Hi].
  apply length_chunk_lookup in Hi as [Hlt ->]; unfold batchSize in *; lia.
Qed.

(** X6. The task of a network sends every batch of its tokens to the
    fetcher, once and in order: there are ceil(N/500) fetch calls, all for
    this network, each carrying between 1 and 501 tokens (a batch of up to
    500, plus the wrapped-native token where it was pushed); on a network
    outside the registry the lists fetched concatenate to the token list; on
    a registered network every list fetched holds a token whose lower-cased
    address is the wrapped-native address. *)
Theorem X6_every_batch_is_fetched
    (fetchPrices : Z -> list ERC20Token -> exn + list (string * Price))
    (storePrices : Z -> list Price -> option exn)
    (chainId : Z) (tokens : list ERC20Token) (h : Heap) :
  let calls := fetch_calls (flatten (events (chainPromise fetchPrices storePrices
                                               (chainId, tokens) h))) in
  length calls = Lodash.ceil_div (length tokens) 500
  /\ (forall c sent, In (c, sent) calls -> c = chainId /\ 1 <= length sent <= 501)
  /\ (registered chainId = false -> concat (map snd calls) = tokens)
  /\ (forall W, wethAddresses chainId = Some W ->
        forall c sent, In (c, sent) calls ->
          exists t, In t sent /\ JS.toLowerCase (address t) = W).
Proof.
  intros calls. subst calls.
  rewrite events_chain, fetch_calls_chain_log.
  split; [|split; [|split]].
  - rewrite length_map. apply length_chunk. unfold batchSize. lia.
  - intros c sent Hin. apply in_map_iff in Hin as (b & [= <- <-] & Hb).
    split; [reflexivity|].
    pose proof (batch_bounds _ _ Hb). pose proof (tokensWithNative_length chainId b). lia.
  - intros Hun. rewrite map_map. cbn [snd].
    rewrite (map_ext _ (fun b => b)) by (intros b; apply tokensWithNative_unregistered, Hun).
    rewrite map_id. apply concat_chunk. unfold batchSize. lia.
  - intros W HW c sent Hin. apply in_map_iff in Hin as (b & [= <- <-] & Hb).
    apply tokensWithNative_has_native. exact HW.
Qed.

Lemma X6_witness :
  length (fetch_calls (flatten (events (chainPromise fetch_none store_ok
                                          (10%Z, tokens_of_length 1200) sample_heap))))
  = Lodash.ceil_div (length (tokens_of_length 1200)) 500.
Proof.
  exact (proj1 (X6_every_batch_is_fetched fetch_none store_ok 10
                  (tokens_of_length 1200) sample_heap)).
Defined.

(** X7. Every [Promise.all] of a network's task awaits between 1 and 3
    fetch-and-store cycles, and together they await one cycle per batch. *)
Theorem X7_at_most_three_cycles_at_once
    (fetchPrices : Z -> list ERC20Token -> exn + list (string * Price))
    (storePrices : Z -> list Price -> option exn)
    (chainId : Z) (tokens : list ERC20Token) (h : Heap) :
  let groups := awaited (events (chainPromise fetchPrices storePrices
                                   (chainId, tokens) h)) in
  (forall tasks, In tasks groups -> 1 <= length tasks <= 3)
  /\ length (concat groups) = Lodash.ceil_div (length tokens) 500.
Proof.
  intros groups. subst groups. rewrite events_chain, awaited_chain_log. split.
  - intros tasks Hin. apply in_map_iff in Hin as (g & <- & Hg).
    rewrite length_map.
    apply list_elem_of_In, list_elem_of_lookup in Hg as [i Hi].
    destruct (group_lookup _ _ _ Hi) as (Hlt & -> & _). lia.
  - change (Lodash.ceil_div (length tokens) 500)
      with (Lodash.ceil_div (length tokens) batchSize).
    rewrite <- (length_chunk tokens batchSize) by (unfold batchSize; lia).
    rewrite <- (concat_chunk (Lodash.chunk tokens batchSize) 3) at 2 by lia.
    generalize (Lodash.chunk (Lodash.chunk tokens batchSize) 3).
    intros gs. induction gs as [|g gs IH]; [reflexivity|].
    cbn [map concat]. rewrite !length_app, length_map, IH. reflexivity.
Qed.

Lemma X7_witness :
  length (concat (awaited (events (chainPromise fetch_none store_ok
                                     (10%Z, tokens_of_length 1200) sample_heap))))
  = Lodash.ceil_div (length (tokens_of_length 1200)) 500.
Proof.
  exact (proj2 (X7_at_most_three_cycles_at_once fetch_none store_ok 10
                  (tokens_of_length 1200) sample_heap)).
Defined.

Section PacingFacts.
Variable fetchPrices : Z -> list ERC20Token -> exn + list (string * Price).
Variable storePrices : Z -> list Price -> option exn.
Abbreviation gov := (governor_log fetchPrices storePrices).


End PacingFacts.




Lemma chunk_single {A} (l : list A) size :
  l <> [] -> length l <= size -> Lodash.chunk l size = [l].
Proof.
  intros Hne Hlen.
  assert (1 <= size) by (destruct l; [congruence | simpl in Hlen; lia]).
  rewrite chunk_unfold by assumption.
  rewrite take_ge, drop_ge by assumption. reflexivity.
Qed.

(** X9. A network with at most 500 tokens (and at least one) is one batch
    in one group: its task starts the entry, awaits the single cycle over
    the whole list, reports the token count, completes the entry and
    increments "processing-all"; it never waits. *)
Theorem X9_network_of_one_batch
    (fetchPrices : Z -> list ERC20Token -> exn + list (string * Price))
    (storePrices : Z -> list Price -> option exn)
    (chainId : Z) (tokens : list ERC20Token) (h h0 : Heap) :
  0 < length tokens <= 500 ->
  events (chainPromise fetchPrices storePrices (chainId, tokens) h) =
  [Ev (ProgressStart (chainKey chainId) "Fetching Prices" (length tokens)
                     (Some chainId));
   All [events (fetchAndStoreBatch fetchPrices storePrices chainId tokens h0)];
   Ev (ProgressUpdate (chainKey chainId) (length tokens));
   Ev (ProgressComplete (chainKey chainId));
   Ev (ProgressIncrement "processing-all")].
Proof.
  intros [Hpos Hle].
  assert (Hne : tokens <> []) by (intros ->; simpl in Hpos; lia).
  rewrite events_chain, (chain_log_nonempty _ _ _ _ Hne).
  rewrite (chunk_single tokens batchSize Hne) by (unfold batchSize; lia).
  rewrite (chunk_single [tokens] 3) by (simpl; (discriminate || lia)).
  cbn [governor_log length map app Nat.sub Nat.ltb Nat.leb].
  rewrite fetchAndStoreBatch_run. cbn [events].
  unfold batch_task, processed_after, batchSize.
  replace (Nat.min (0 * 3 * 500 + length [tokens] * 500) (length tokens))
    with (length tokens) by (cbn [length]; lia).
  reflexivity.
Qed.

Lemma X9_witness :
  0 < length (tokens_of_length 3) <= 500
  /\ timeouts (own (events (chainPromise fetch_none store_ok (10%Z, tokens_of_length 3)
                              sample_heap))) = [].
Proof.
  assert (H : 0 < length (tokens_of_length 3) <= 500) by (simpl; lia).
  split; [exact H|].
  rewrite (X9_network_of_one_batch fetch_none store_ok 10 (tokens_of_length 3)
             sample_heap sample_heap H).
  reflexivity.
Defined.

(** ** One pass over all networks *)

Lemma totalTokens_sum (tokensByChain : list (Z * list ERC20Token)) :
  fold_left (fun sum entry => sum + length (snd entry)) tokensByChain 0
  = length (concat (map snd tokensByChain)).
Proof.
  assert (H : forall acc,
            fold_left (fun sum entry => sum + length (snd entry)) tokensByChain acc
            = acc + length (concat (map snd tokensByChain))).
  { induction tokensByChain as [|entry rest IH]; intros acc; cbn [fold_left map concat].
    - simpl. lia.
    - rewrite IH, length_app. lia. }
  apply H.
Qed.

Section PassMoreFacts.
Variable fetchPrices : Z -> list ERC20Token -> exn + list (string * Price).
Variable storePrices : Z -> list Price -> option exn.
Variable discoverAllTokens : bool -> exn + list (Z * list ERC20Token).
Abbreviation run_pass :=
  (fetchDiscoveredTokens fetchPrices storePrices discoverAllTokens).
Abbreviation chain_of := (chain_log fetchPrices storePrices).

Lemma pass_discovery_ok_exact forceRefresh tokensByChain h :
  discoverAllTokens forceRefresh = inr tokensByChain ->
  exists errors h',
    run_pass forceRefresh h =
    mkOutcome [Ev (DiscoverAllTokens forceRefresh);
               Ev (LoggerDebug (DiscoveryComplete
                                  (length tokensByChain)
                                  (length (concat (map snd tokensByChain)))));
               Ev (ProgressStart processingKey "Processing Chains"
                                 (length tokensByChain) None);
               All (map chain_of tokensByChain);
               Ev (ProgressComplete processingKey);
               Ev ProgressGetStats;
               Ev (LoggerInfo (PriceFetchComplete
                                 (length (concat (map snd tokensByChain))) errors))]
              h' (inr tt)
    /\ errors <> Some 0.
Proof.
  intros Hd.
  pose proof (runs_to_promise_all _ _
                (runs_to_map (chainPromise fetchPrices storePrices) chain_of
                             tokensByChain
                             (runs_to_chain_log fetchPrices storePrices))) as Hall.
  unfold fetchDiscoveredTokens, try_catch, tokenDiscoveryService_discoverAllTokens.
  unfold logger_debug, logger_info, progressTracker_start, progressTracker_complete,
    progressTracker_getStats, tracked.
  run_monad. rewrite Hd. cbn [result events heap arrays tracker].
  match goal with |- context [promise_all ?ts ?h0] => destruct (Hall h0) as [h1 ->] end.
  cbn [result events heap arrays tracker app].
  rewrite totalTokens_sum.
  do 2 eexists. split; [reflexivity|].
  destruct (Nat.ltb_spec 0 (ProgressTracker.stats_errors
                              (ProgressTracker.getStats
                                 (ProgressTracker.complete processingKey (tracker h1)))));
    [intros [= E]; lia | discriminate].
Qed.

Lemma progress_increments_chain entry :
  progress_increments (flatten (chain_of entry)) = [processingKey].
Proof.
  destruct entry as [chainId [|t ts]]; [reflexivity|].
  rewrite chain_log_nonempty by discriminate.
  change (flatten (?a :: ?b)) with (flatten [a] ++ flatten b).
  rewrite flatten_app. unfold progress_increments. rewrite !flat_map_app.
  rewrite governor_silent; try reflexivity.
  intros sent. apply progress_increments_cycle.
Qed.

Lemma flatten_chains (entries : list (Z * list ERC20Token)) :
  flat_map (flat_map flatten_item) (map chain_of entries)
  = flat_map (fun entry => flatten (chain_of entry)) entries.
Proof. induction entries; [reflexivity|]. cbn [map flat_map]. f_equal. assumption. Qed.
End PassMoreFacts.

(** X10. When [discoverAllTokens] rejects, the pass consists of the
    discovery call and one [logger.error] carrying the rejection: no tracker
    entry is started, nothing is fetched or stored, the heap is as it was,
    and the promise of the pass still fulfils. *)
Theorem X10_discovery_failure_ends_the_pass
    (fetchPrices : Z -> list ERC20Token -> exn + list (string * Price))
    (storePrices : Z -> list Price -> option exn)
    (discoverAllTokens : bool -> exn + list (Z * list ERC20Token))
    (forceRefresh : bool) (e : exn) (h : Heap) :
  discoverAllTokens forceRefresh = inl e ->
  let o := fetchDiscoveredTokens fetchPrices storePrices discoverAllTokens
             forceRefresh h in
  events o = [Ev (DiscoverAllTokens forceRefresh);
              Ev (LoggerError ErrorFetchingDiscoveredTokens e)]
  /\ tracker_calls (flatten (events o)) = []
  /\ fetch_calls (flatten (events o)) = []
  /\ heap o = h
  /\ result o = inr tt.
Proof.
  intros He o. subst o. rewrite (pass_discovery_fails _ _ _ _ _ _ He).
  repeat split.
Qed.

Lemma X10_witness :
  discover_fails true = inl "discovery failed"
  /\ events (fetchDiscoveredTokens fetch_all store_ok discover_fails true sample_heap)
     = [Ev (DiscoverAllTokens true);
        Ev (LoggerError ErrorFetchingDiscoveredTokens "discovery failed")].
Proof.
  split; [reflexivity|].
  exact (proj1 (X10_discovery_failure_ends_the_pass fetch_all store_ok discover_fails
                  true "discovery failed" sample_heap eq_refl)).
Defined.

(** X11. The pass's own calls after a successful discovery, in order: the
    discovery; a debug line with the number of networks and the total number
    of tokens over all networks; the start of "processing-all" with the
    number of networks as total; (the networks' tasks;) the completion of
    "processing-all"; [getStats]; the summary line with the same token total,
    which mentions errors only for a positive count.  The pass fulfils. *)
Theorem X11_pass_own_calls
    (fetchPrices : Z -> list ERC20Token -> exn + list (string * Price))
    (storePrices : Z -> list Price -> option exn)
    (discoverAllTokens : bool -> exn + list (Z * list ERC20Token))
    (forceRefresh : bool) (tokensByChain : list (Z * list ERC20Token)) (h : Heap) :
  discoverAllTokens forceRefresh = inr tokensByChain ->
  let o := fetchDiscoveredTokens fetchPrices storePrices discoverAllTokens
             forceRefresh h in
  let totalTokens := length (concat (map snd tokensByChain)) in
  result o = inr tt
  /\ exists errors,
       errors <> Some 0
       /\ own (events o) =
          [DiscoverAllTokens forceRefresh;
           LoggerDebug (DiscoveryComplete (length tokensByChain) totalTokens);
           ProgressStart "processing-all" "Processing Chains"
                         (length tokensByChain) None;
           ProgressComplete "processing-all";
           ProgressGetStats;
           LoggerInfo (PriceFetchComplete totalTokens errors)].
Proof.
  intros Hd o totalTokens. subst o totalTokens.
  destruct (pass_discovery_ok_exact fetchPrices storePrices discoverAllTokens
              forceRefresh tokensByChain h Hd) as (errors & h' & -> & Herr).
  split; [reflexivity|]. exists errors. split; [exact Herr | reflexivity].
Qed.

Lemma X11_witness :
  discover_sample true = inr [(1%Z, tokens_of_length 3); (10%Z, [])]
  /\ result (fetchDiscoveredTokens fetch_none store_ok discover_sample true sample_heap)
     = inr tt.
Proof.
  split; [reflexivity|].
  exact (proj1 (X11_pass_own_calls fetch_none store_ok discover_sample true _
                  sample_heap eq_refl)).
Defined.

(** X12. In a pass with a successful discovery the networks' tasks are
    awaited together, one task per entry.  Over the whole pass
    "processing-all" is incremented once per discovered network, so as often
    as the total it was started with.  Each task, in its own program order,
    starts the entry of its network exactly when the network has tokens, and
    calls the fetcher once for each batch of its network's tokens, batch
    after batch.  Nothing is said about the order of calls of different
    networks, which run concurrently. *)
Theorem X12_pass_covers_all_networks
    (fetchPrices : Z -> list ERC20Token -> exn + list (string * Price))
    (storePrices : Z -> list Price -> option exn)
    (discoverAllTokens : bool -> exn + list (Z * list ERC20Token))
    (forceRefresh : bool) (tokensByChain : list (Z * list ERC20Token)) (h : Heap) :
  discoverAllTokens forceRefresh = inr tokensByChain ->
  let log := events (fetchDiscoveredTokens fetchPrices storePrices
                       discoverAllTokens forceRefresh h) in
  length (progress_increments (flatten log)) = length tokensByChain
  /\ (forall k, In k (progress_increments (flatten log)) -> k = "processing-all")
  /\ exists tasks,
       awaited log = [tasks]
       /\ map (fun task => progress_starts (flatten task)) tasks
          = map (fun entry =>
                   match snd entry with
                   | [] => []
                   | _ :: _ => [(chainKey (fst entry), "Fetching Prices",
                                 length (snd entry), Some (fst entry))]
                   end) tokensByChain
       /\ map (fun task => fetch_calls (flatten task)) tasks
          = map (fun entry =>
                   map (fun b => (fst entry, tokensWithNative (fst entry) b))
                       (Lodash.chunk (snd entry) batchSize)) tokensByChain.
Proof.
  intros Hd log. subst log.
  destruct (pass_discovery_ok_exact fetchPrices storePrices discoverAllTokens
              forceRefresh tokensByChain h Hd) as (errors & h' & -> & _).
  cbn [events]. clear Hd.
  assert (Hinc : progress_increments
                   (flatten [Ev (DiscoverAllTokens forceRefresh);
                             Ev (LoggerDebug
                                   (DiscoveryComplete
                                      (length tokensByChain)
                                      (length (concat (map snd tokensByChain)))));
                             Ev (ProgressStart processingKey "Processing Chains"
                                               (length tokensByChain) None);
                             All (map (chain_log fetchPrices storePrices) tokensByChain);
                             Ev (ProgressComplete processingKey);
                             Ev ProgressGetStats;
                             Ev (LoggerInfo
                                   (PriceFetchComplete
                                      (length (concat (map snd tokensByChain)))
                                      errors))])
                 = repeat "processing-all" (length tokensByChain)).
  { change (flatten (?a :: ?b :: ?c :: ?d :: ?e))
      with (flatten [a; b; c] ++ flatten_item d ++ flatten e).
    cbn [flatten_item]. rewrite flatten_chains.
    unfold progress_increments. rewrite !flat_map_app.
    cbn [flatten flat_map flatten_item app]. rewrite app_nil_r.
    generalize (length (concat (map snd tokensByChain))). intros _.
    induction tokensByChain as [|entry rest IH]; [reflexivity|].
    cbn [flat_map length repeat]. rewrite flat_map_app, IH.
    pose proof (progress_increments_chain fetchPrices storePrices entry) as Hc.
    unfold progress_increments in Hc. rewrite Hc. reflexivity. }
  rewrite Hinc. split; [apply repeat_length|].
  split; [intros k Hk; apply repeat_spec in Hk; exact Hk|].
  exists (map (chain_log fetchPrices storePrices) tokensByChain).
  split; [reflexivity|]. rewrite !map_map. split.
  - apply map_ext. intros [chainId tokens]. cbn [fst snd].
    destruct tokens as [|t ts]; [reflexivity|].
    rewrite chain_log_nonempty by discriminate.
    change (flatten (?a :: ?b)) with (flatten [a] ++ flatten b).
    rewrite flatten_app. unfold progress_starts. rewrite !flat_map_app.
    rewrite (governor_silent fetchPrices storePrices
               (fun e => match e with
                         | ProgressStart k lbl n c => [(k, lbl, n, c)]
                         | _ => []
                         end)); try reflexivity.
    intros sent. apply progress_starts_cycle.
  - apply map_ext. intros [chainId tokens]. cbn [fst snd].
    apply fetch_calls_chain_log.
Qed.

Lemma X12_witness :
  discover_sample true = inr [(1%Z, tokens_of_length 3); (10%Z, [])]
  /\ length (progress_increments
               (flatten (events (fetchDiscoveredTokens fetch_none store_ok
                                   discover_sample true sample_heap))))
     = 2.
Proof.
  split; [reflexivity|].
  exact (proj1 (X12_pass_covers_all_networks fetch_none store_ok discover_sample true
                  _ sample_heap eq_refl)).
Defined.

(** ** The rediscovery window *)

(** X13. The rediscovery test of a tick depends on the phase of the clock
    in the hour only: it is periodic with period 3600000 in the clock
    reading; with an interval of an hour or more every tick rediscovers;
    with an interval of zero or less no tick does (for a clock that is not
    negative); a clock reading before the epoch rediscovers for every
    positive interval, because [%] keeps the sign of the dividend. *)
Theorem X13_rediscovery_window (now intervalMs : Z) :
  ((0 <= now)%Z ->
     shouldRediscover (now + 3600000) intervalMs = shouldRediscover now intervalMs)
  /\ ((3600000 <= intervalMs)%Z -> shouldRediscover now intervalMs = true)
  /\ ((0 <= now)%Z -> (intervalMs <= 0)%Z -> shouldRediscover now intervalMs = false)
  /\ ((now < 0)%Z -> (0 < intervalMs)%Z -> shouldRediscover now intervalMs = true).
Proof.
  unfold shouldRediscover. repeat split.
  - intros Hnow. rewrite !Z.rem_mod_nonneg by lia.
    replace (now + 3600000)%Z with (now + 1 * 3600000)%Z by lia.
    rewrite Z.mod_add by lia. reflexivity.
  - intros Hi. apply Z.ltb_lt.
    pose proof (Z.rem_bound_abs now 3600000 ltac:(lia)). lia.
  - intros Hnow Hi. apply Z.ltb_ge.
    pose proof (Z.rem_nonneg now 3600000 ltac:(lia) Hnow). lia.
  - intros Hnow Hi. apply Z.ltb_lt.
    pose proof (Z.rem_nonpos now 3600000 ltac:(lia) ltac:(lia)). lia.
Qed.

Lemma X13_witness :
  shouldRediscover (7230000 + 3600000) 60000 = shouldRediscover 7230000 60000.
Proof.
  apply (proj1 (X13_rediscovery_window 7230000 60000)). lia.
Defined.

(** ** The interval handle *)

(** X14. [stopPeriodicFetch] after [startPeriodicFetch] clears the interval
    that start armed, and only that one: the armed intervals are those from
    before the start, the field is null again, and the stop is logged once.
    A second stop finds the field null: it clears nothing, logs nothing and
    leaves the state as it is. *)
Theorem X14_stop_clears_the_started_interval (intervalMs : Z) (s : Interval.State) :
  Interval.wf s ->
  let s1 := snd (Interval.startPeriodicFetch intervalMs s) in
  let s2 := snd (Interval.stopPeriodicFetch s1) in
  fst (Interval.stopPeriodicFetch s1)
    = [Interval.ClearIntervalCall (Interval.fresh s); Interval.LoggerInfoStopped]
  /\ Interval.armed s2 = Interval.armed s
  /\ Interval.fetchInterval s2 = None
  /\ Interval.stopPeriodicFetch s2 = ([], s2)
  /\ Interval.wf s2.
Proof.
  intros [Harmed Hfield] s1 s2. subst s1 s2.
  unfold Interval.startPeriodicFetch, Interval.stopPeriodicFetch.
  cbn [snd fst Interval.fetchInterval Interval.armed Interval.fresh].
  assert (Hclear : Interval.clearInterval (Interval.fresh s)
                     (Interval.fresh s :: Interval.armed s) = Interval.armed s).
  { unfold Interval.clearInterval. cbn [List.filter]. rewrite Nat.eqb_refl. cbn [negb].
    induction (Interval.armed s) as [|x l IH]; [reflexivity|].
    cbn [List.filter].
    destruct (Nat.eqb_spec x (Interval.fresh s)) as [->|Hne].
    - specialize (Harmed (Interval.fresh s) (or_introl eq_refl)). lia.
    - cbn [negb]. f_equal. apply IH. intros y Hy. apply Harmed. right. exact Hy. }
  rewrite Hclear. repeat split.
  - intros x Hx. cbn [Interval.armed Interval.fresh] in *. specialize (Harmed x Hx). lia.
  - discriminate.
Qed.

Lemma X14_witness :
  Interval.wf (Interval.mkState None [] 0)
  /\ Interval.armed
       (snd (Interval.stopPeriodicFetch
               (snd (Interval.startPeriodicFetch 60000 (Interval.mkState None [] 0)))))
     = [].
Proof.
  assert (H : Interval.wf (Interval.mkState None [] 0)).
  { split; [intros x [] | discriminate]. }
  split; [exact H|].
  exact (proj1 (proj2 (X14_stop_clears_the_started_interval 60000 _ H))).
Defined.

(** X15. [startPeriodicFetch] overwrites the field without clearing the
    interval it held: after two starts, a stop clears the second interval
    only, the field is null, and the first interval stays armed however
    often [stopPeriodicFetch] is called afterwards. *)
Theorem X15_second_start_leaks_the_first_interval
    (i1 i2 : Z) (s : Interval.State) (n : nat) :
  Interval.wf s ->
  let s2 := snd (Interval.startPeriodicFetch i2
                   (snd (Interval.startPeriodicFetch i1 s))) in
  let stopped := Nat.iter (S n) (fun x => snd (Interval.stopPeriodicFetch x)) s2 in
  In (Interval.fresh s) (Interval.armed stopped)
  /\ ~ In (S (Interval.fresh s)) (Interval.armed stopped)
  /\ Interval.fetchInterval stopped = None.
Proof.
  intros [Harmed Hfield] s2 stopped. subst stopped s2.
  induction n as [|n IH].
  - unfold Interval.startPeriodicFetch, Interval.stopPeriodicFetch, Interval.clearInterval.
    unfold Nat.iter.
    cbn [nat_rect snd Interval.fetchInterval Interval.armed Interval.fresh List.filter].
    rewrite Nat.eqb_refl. cbn [negb].
    replace (Interval.fresh s =? S (Interval.fresh s)) with false
      by (symmetry; apply Nat.eqb_neq; lia).
    cbn [negb]. split; [left; reflexivity|]. split; [|reflexivity].
    intros [Heq|Hin]; [lia|].
    apply filter_In in Hin as [Hin _]. specialize (Harmed _ Hin). lia.
  - change (Nat.iter (S (S n)) ?f ?x) with (f (Nat.iter (S n) f x)).
    destruct IH as (H1 & H2 & H3).
    unfold Interval.stopPeriodicFetch at 1 3 5. rewrite H3. cbn [snd].
    repeat split; assumption.
Qed.

Lemma X15_witness :
  Interval.wf (Interval.mkState None [] 0)
  /\ In 0 (Interval.armed
             (Nat.iter 2 (fun x => snd (Interval.stopPeriodicFetch x))
                (snd (Interval.startPeriodicFetch 60000
                        (snd (Interval.startPeriodicFetch 60000
                                (Interval.mkState None [] 0))))))).
Proof.
  assert (H : Interval.wf (Interval.mkState None [] 0)).
  { split; [intros x [] | discriminate]. }
  split; [exact H|].
  exact (proj1 (X15_second_start_leaks_the_first_interval 60000 60000 _ 1 H)).
Defined.

(** ** A timer without drift *)

Section RegularTimer.
Local Open Scope Z_scope.

(** The tick that falls into the rediscovery window of its hour, among [n]
    ticks of period [p] with [n * p] an hour. *)
Lemma phase_of_tick (start p n k : Z) :
  0 < p -> 0 <= start -> n * p = 3600000 -> 0 <= k < n ->
  let q := (start mod 3600000) / p in
  let k0 := if q =? 0 then 0 else n - q in
  ((start + k * p) mod 3600000 <? p) = (k =? k0).
Proof.
  intros Hp Hs Hn Hk q k0.
  pose proof (Z.mod_pos_bound start 3600000 ltac:(lia)) as Hr.
  pose proof (Z.div_mod start 3600000 ltac:(lia)) as Ha.
  set (r := start mod 3600000) in *. set (a := start / 3600000) in *.
  pose proof (Z.div_mod r p ltac:(lia)) as Hq.
  pose proof (Z.mod_pos_bound r p Hp) as Hsb.
  fold q in Hq. set (s := r mod p) in *.
  assert (Hq0 : 0 <= q) by (apply Z.div_pos; lia).
  clearbody q s a r.
  assert (Hqn : q < n) by nia.
  destruct (Z_lt_le_dec (r + k * p) 3600000) as [Hlt|Hge].
  - assert (E : (start + k * p) mod 3600000 = r + k * p).
    { symmetry. apply (Z.mod_unique _ _ a); [left; nia | lia]. }
    rewrite E. subst k0.
    destruct (Z.eqb_spec q 0) as [Hz|Hnz].
    + destruct (Z.eqb_spec k 0) as [->|Hk0]; [apply Z.ltb_lt; nia | apply Z.ltb_ge; nia].
    + destruct (Z.eqb_spec k (n - q)) as [->|Hk0]; [nia | apply Z.ltb_ge; nia].
  - assert (E : (start + k * p) mod 3600000 = r + k * p - 3600000).
    { symmetry. apply (Z.mod_unique _ _ (a + 1)); [left; nia | lia]. }
    rewrite E. subst k0.
    destruct (Z.eqb_spec q 0) as [Hz|Hnz].
    + nia.
    + destruct (Z.eqb_spec k (n - q)) as [->|Hk0];
        [apply Z.ltb_lt; nia | apply Z.ltb_ge; nia].
Qed.

Lemma phase_in_range (start p n : Z) :
  0 < p -> 0 <= start -> n * p = 3600000 ->
  let q := (start mod 3600000) / p in
  0 <= (if q =? 0 then 0 else n - q) < n.
Proof.
  intros Hp Hs Hn q.
  pose proof (Z.mod_pos_bound start 3600000 ltac:(lia)) as Hr.
  pose proof (Z.div_mod (start mod 3600000) p ltac:(lia)) as Hq.
  pose proof (Z.mod_pos_bound (start mod 3600000) p Hp) as Hsb.
  fold q in Hq.
  assert (Hq0 : 0 <= q) by (apply Z.div_pos; lia).
  clearbody q.
  assert (Hqn : q < n) by nia.
  destruct (Z.eqb_spec q 0); nia.
Qed.
End RegularTimer.

Lemma length_filter_map {A B} (f : B -> bool) (g : A -> B) (l : list A) :
  length (List.filter f (map g l)) = length (List.filter (fun x => f (g x)) l).
Proof.
  induction l as [|x l IH]; [reflexivity|].
  cbn [map List.filter]. destruct (f (g x)); cbn [length]; rewrite IH; reflexivity.
Qed.

Lemma length_filter_single (f : nat -> bool) (k0 : nat) : forall n a,
  (forall k, a <= k < a + n -> f k = (k =? k0)) ->
  length (List.filter f (seq a n)) = if (a <=? k0) && (k0 <? a + n) then 1 else 0.
Proof.
  induction n as [|n IH]; intros a Hf.
  - cbn [seq List.filter length].
    destruct (Nat.leb_spec a k0); destruct (Nat.ltb_spec k0 (a + 0)); cbn; lia.
  - cbn [seq List.filter]. rewrite (Hf a) by lia.
    specialize (IH (S a) ltac:(intros k Hk; apply Hf; lia)).
    destruct (Nat.eqb_spec a k0) as [Heq|Hne]; cbn [length]; rewrite IH;
      destruct (Nat.leb_spec (S a) k0); destruct (Nat.leb_spec a k0);
      destruct (Nat.ltb_spec k0 (S a + n)); destruct (Nat.ltb_spec k0 (a + S n));
      cbn; lia.
Qed.

(** X16. For a timer without drift whose interval divides the hour (as the
    default 60000 ms does), of the ticks of any one hour exactly one passes
    the rediscovery test: [n] ticks, [intervalMs] apart, with
    [n * intervalMs = 3600000], from any clock reading that is not
    negative. *)
Theorem X16_one_rediscovery_per_hour (intervalMs start : Z) (n : nat) :
  (0 < intervalMs)%Z -> (0 <= start)%Z ->
  (Z.of_nat n * intervalMs = 3600000)%Z ->
  length (List.filter (fun now => shouldRediscover now intervalMs)
                      (regular_ticks start intervalMs n)) = 1.
Proof.
  intros Hp Hs Hn. unfold regular_ticks. rewrite length_filter_map.
  pose proof (phase_in_range start intervalMs (Z.of_nat n) Hp Hs Hn) as Hrange.
  cbv zeta in Hrange.
  set (k0 := (if ((start mod 3600000) / intervalMs =? 0)%Z then 0%Z
              else (Z.of_nat n - (start mod 3600000) / intervalMs)%Z)) in *.
  rewrite (length_filter_single _ (Z.to_nat k0)).
  - destruct (Nat.leb_spec 0 (Z.to_nat k0)); destruct (Nat.ltb_spec (Z.to_nat k0) (0 + n));
      cbn; lia.
  - intros k Hk. unfold shouldRediscover.
    rewrite Z.rem_mod_nonneg by nia.
    pose proof (phase_of_tick start intervalMs (Z.of_nat n) (Z.of_nat k) Hp Hs Hn
                  ltac:(lia)) as Hphase.
    cbv zeta in Hphase. fold k0 in Hphase. rewrite Hphase.
    destruct (Z.eqb_spec (Z.of_nat k) k0); destruct (Nat.eqb_spec k (Z.to_nat k0)); lia.
Qed.

Lemma X16_witness :
  (0 < 60000)%Z /\ (0 <= 7230000)%Z /\ (Z.of_nat 60 * 60000 = 3600000)%Z
  /\ length (List.filter (fun now => shouldRediscover now 60000)
                         (regular_ticks 7230000 60000 60)) = 1.
Proof.
  assert (H1 : (0 < 60000)%Z) by lia.
  assert (H2 : (0 <= 7230000)%Z) by lia.
  assert (H3 : (Z.of_nat 60 * 60000 = 3600000)%Z) by reflexivity.
  split; [exact H1|]. split; [exact H2|]. split; [exact H3|].
  exact (X16_one_rediscovery_per_hour 60000 7230000 60 H1 H2 H3).
Defined.
